(** * vidar: span repositioning, outline construction, statement walker, reload gate

    A shallow embedding of the parts of the editor that the specification
    makes claims about:

    - [Gosyntax]  : plugin/gosyntax, [Highlight.Applied] / [moveLayer] / [moveSpan];
    - [Navigator] : navigator (table of contents), tree node adapters and [parsePkg];
    - [Syntax]    : plugin/gosyntax/syntax/stmt.go, the statement walker;
    - [Reload]    : navigator/project_tree.go, [ProjectTree.update] and its gate.

    and of the code around them: [Editor] (the tabs of an editor),
    [Commands] (opening a project), [Main] (the choice of the font),
    [Directory] (the tree of directories), [Watch] (the watch over a
    project) and [Settings] (the key bindings).

    Each part gives its definitions first; the theorems follow in the second
    half of the file. *)

From Stdlib Require Import ZArith Lia List String Ascii Bool Permutation Btauto.
From stdpp Require Import gmap strings list relations.

Set Default Proof Using "Type".
Set Warnings "-register-all".

(* ===================================================================== *)
(** * Part I: definitions *)
(* ===================================================================== *)

(** ** Go's [int]

    [int] is a signed 64-bit integer on the platforms the editor is built
    for; arithmetic wraps around silently. *)
Module GoInt.
Local Open Scope Z_scope.

Definition min_int : Z := - 2 ^ 63.
Definition max_int : Z := 2 ^ 63 - 1.

(** Two's complement reduction of a mathematical integer to [int]. *)
Definition wrap (x : Z) : Z := (x + 2 ^ 63) mod 2 ^ 64 - 2 ^ 63.

(** [a + b] and [a - b] on [int]. *)
Definition add (a b : Z) : Z := wrap (a + b).
Definition sub (a b : Z) : Z := wrap (a - b).

Definition in_int (x : Z) : Prop := min_int <= x <= max_int.

(** [len(x)] of a slice. *)
Definition len {A : Type} (l : list A) : Z := Z.of_nat (length l).

(** [len(s)] of a string: its number of bytes. *)
Definition slen (s : string) : Z := Z.of_nat (String.length s).
End GoInt.

(** ** plugin/gosyntax: repositioning of highlight spans *)
Module Gosyntax.
Import GoInt.
Local Open Scope Z_scope.

(** [rune] is an alias of [int32]; only the number of runes matters here. *)
Definition rune : Type := Z.

(** Modelled from the spec: [input.Span], declared outside these sources; a
    half-open text range from [Start] to [End], the two fields [moveSpan]
    reads and writes. *)
Record Span : Type := mkSpan { Start : Z; End : Z }.

(** Modelled from the spec: [input.Edit], declared outside these sources; a
    mutation at the position [At] that replaces the text [Old] by the text
    [New], of which [moveSpan] reads the lengths. *)
Record Edit : Type := mkEdit { At : Z; Old : list rune; New : list rune }.

(** Modelled from the spec: [input.SyntaxLayer], declared outside these
    sources; the spans of one category. *)
Record SyntaxLayer : Type := mkLayer { Construct : nat; Spans : list Span }.

Definition setEnd (s : Span) (v : Z) : Span := {| Start := Start s; End := v |}.
Definition setStart (s : Span) (v : Z) : Span := {| Start := v; End := End s |}.

(** [delta := len(e.New) - len(e.Old)] *)
Definition delta (e : Edit) : Z := sub (len (New e)) (len (Old e)).

(** [func (h *Highlight) moveSpan(s input.Span, edits []input.Edit) input.Span].
    The recursion is the [for _, e := range edits] loop; [return s] leaves
    the loop, [continue] goes on with the rest of the batch. *)
Fixpoint moveSpan (s : Span) (edits : list Edit) : Span :=
  match edits with
  | [] => s
  | e :: rest =>
      if At e >? End s then s
      else
        let d := delta e in
        if d =? 0 then moveSpan s rest
        else
          let s := setEnd s (add (End s) d) in
          let s := if End s <? At e then setEnd s (At e) else s in
          if At e >? Start s then moveSpan s rest
          else
            let s := setStart s (add (Start s) d) in
            let s := if Start s <? At e then setStart s (At e) else s in
            moveSpan s rest
  end.

(** [func (h *Highlight) moveLayer(l input.SyntaxLayer, edits []input.Edit)] *)
Definition moveLayer (l : SyntaxLayer) (edits : list Edit) : SyntaxLayer :=
  {| Construct := Construct l;
     Spans := List.map (fun s => moveSpan s edits) (Spans l) |}.

(** [func (h *Highlight) Applied(e input.Editor, edits []input.Edit)]: the
    editor is represented by the layers it holds before and after. *)
Definition Applied (layers : list SyntaxLayer) (edits : list Edit)
  : list SyntaxLayer :=
  List.map (fun l => moveLayer l edits) layers.

(** A span of a document: [0 <= start <= end], representable as [int]. *)
Definition valid_span (s : Span) : Prop := 0 <= Start s <= End s /\ End s <= max_int.

(** An edit whose position is non-negative; slice lengths are [int]s. *)
Definition valid_edit (e : Edit) : Prop :=
  0 <= At e <= max_int /\ len (Old e) <= max_int /\ len (New e) <= max_int.

(** The most a batch can add to an offset: the sum of its positive deltas. *)
Fixpoint growth (edits : list Edit) : Z :=
  match edits with
  | [] => 0
  | e :: rest => Z.max 0 (len (New e) - len (Old e)) + growth rest
  end.

(** *** Sample inputs *)

(** A span and two insertions: one after the span, one of three runes
    before it. *)
Definition c1_span : Span := mkSpan 10 20.
Definition c1_after : Edit := mkEdit 30 [] [120].
Definition c1_before : Edit := mkEdit 0 [] [97; 98; 99].

(** Two layers; a deletion of six runes at 2, then an insertion of two
    runes at 6. *)
Definition c2_layers : list SyntaxLayer :=
  [ mkLayer 0 [mkSpan 0 4; mkSpan 5 9]; mkLayer 1 [mkSpan 12 20] ].
Definition c2_edits : list Edit :=
  [ mkEdit 2 [1; 2; 3; 4; 5; 6] []; mkEdit 6 [] [7; 8] ].

(** Two layers and an insertion of three runes at 4: before the spans
    from 10 and from 5, inside the span from 0. *)
Definition c3_layers : list SyntaxLayer :=
  [ mkLayer 0 [mkSpan 0 4; mkSpan 10 20]; mkLayer 1 [mkSpan 5 9] ].
Definition c3_insert : Edit := mkEdit 4 [] [97; 98; 99].

(** *** Notions the further theorems on repositioning are stated with *)

(** What one edit that reaches a span makes of it, in unbounded integers:
    the end moves by the change of length but not below the edit; the
    start too, unless the edit begins after it. *)
Definition moved (s : Span) (e : Edit) : Span :=
  let d := len (New e) - len (Old e) in
  {| Start := if At e >? Start s then Start s else Z.max (Start s + d) (At e);
     End := Z.max (End s + d) (At e) |}.

(** A layer, a deletion and a same-length replacement to try the theorems
    on. *)
Definition x_layers : list SyntaxLayer :=
  [ mkLayer 0 [mkSpan 3 8; mkSpan 10 20]; mkLayer 4 [mkSpan 30 31] ].
Definition x_replace : Edit := mkEdit 5 [1; 2; 3] [7; 8; 9].
Definition x_delete : Edit := mkEdit 2 [1; 2; 3; 4] [].
End Gosyntax.

(** ** navigator: the table of contents *)
Module Navigator.
Import GoInt.
Local Open Scope Z_scope.
Local Open Scope string_scope.

(** The package-level colours of the outline; [zeroColor] is the zero value
    of [gxui.Color], the colour of a [Name{}] that was never filled in. *)
Inductive Color : Type := zeroColor | genericColor | nameColor | skippableColor.

(** The implementations of [gxui.TreeNode] the outline is made of:
    [genericTreeNode]; [Name] (a [genericTreeNode] with a [Location]);
    [skippingTreeNode] (the node type [TOC] embeds). *)
Inductive TreeNode : Type :=
| GenericTreeNode (name path : string) (color : Color) (children : list TreeNode)
| NameNode (name path : string) (color : Color) (children : list TreeNode)
           (filename : string) (pos : Z)
| SkippingTreeNode (name path : string) (color : Color) (children : list TreeNode).

Definition node_name (t : TreeNode) : string :=
  match t with
  | GenericTreeNode n _ _ _ | NameNode n _ _ _ _ _ | SkippingTreeNode n _ _ _ => n
  end.
Definition node_path (t : TreeNode) : string :=
  match t with
  | GenericTreeNode _ p _ _ | NameNode _ p _ _ _ _ | SkippingTreeNode _ p _ _ => p
  end.
Definition node_color (t : TreeNode) : Color :=
  match t with
  | GenericTreeNode _ _ c _ | NameNode _ _ c _ _ _ | SkippingTreeNode _ _ c _ => c
  end.
Definition node_children (t : TreeNode) : list TreeNode :=
  match t with
  | GenericTreeNode _ _ _ l | NameNode _ _ _ l _ _ | SkippingTreeNode _ _ _ l => l
  end.


(** [Count]: [genericTreeNode.Count] is [len(t.children)];
    [skippingTreeNode.Count] asks the only child when there is exactly one. *)
Fixpoint Count (t : TreeNode) : Z :=
  match t with
  | SkippingTreeNode _ _ _ [c] => Count c
  | _ => len (node_children t)
  end.

(** [Item]: the path, or the only child's item for a skipping node. *)
Fixpoint Item (t : TreeNode) : string :=
  match t with
  | SkippingTreeNode _ _ _ [c] => Item c
  | _ => node_path t
  end.


(** The loop of [genericTreeNode.ItemIndex] over [t.children], from index [i]. *)
Fixpoint itemIndexFrom (item : string) (children : list TreeNode) (i : Z) : Z :=
  match children with
  | [] => -1
  | child :: rest =>
      let childPath := Item child in
      if String.eqb item childPath || String.prefix (childPath ++ ".") item
      then i
      else itemIndexFrom item rest (i + 1)
  end.

Fixpoint ItemIndex (t : TreeNode) (item : string) : Z :=
  match t with
  | SkippingTreeNode _ _ _ [c] => ItemIndex c item
  | _ => itemIndexFrom item (node_children t) 0
  end.

(** [t.children[index]]; [None] is the index-out-of-range panic. *)
Definition index_children (children : list TreeNode) (index : Z) : option TreeNode :=
  if (index <? 0)%Z then None else nth_error children (Z.to_nat index).

Fixpoint NodeAt (t : TreeNode) (index : Z) : option TreeNode :=
  match t with
  | SkippingTreeNode _ _ _ [c] => NodeAt c index
  | _ => index_children (node_children t) index
  end.

(** *** The part of [go/ast] that [parsePkg] inspects *)

Inductive Expr : Type :=
| Ident (name : string)
| StarExpr (x : Expr)
| OtherExpr.

(** [token.Token], as far as declarations go. *)
Inductive Token : Type := IMPORT | CONST | TYPE | VAR | ILLEGAL.

Definition Token_String (t : Token) : string :=
  match t with
  | IMPORT => "import" | CONST => "const" | TYPE => "type" | VAR => "var"
  | ILLEGAL => "ILLEGAL"
  end.

(** An identifier with its position. *)
Record IdentAt : Type := mkIdent { id_name : string; id_pos : Z }.

Inductive Spec : Type :=
| ImportSpec
| ValueSpec (names : list IdentAt)
| TypeSpec (name : IdentAt).

(** An entry of a receiver list; only its [Type] is read. *)
Record Field : Type := mkField { Type_ : Expr }.

Inductive Decl : Type :=
| BadDecl
| GenDecl (tok : Token) (specs : list Spec)
| FuncDecl (name : string) (pos : Z) (recv : option (list Field)).

(** [ast.Package]: [Files] is a map from file name to file; the list gives
    the entries in the order the [range] loop happens to visit them. *)
Record Package : Type := mkPackage {
  pkg_name : string;
  pkg_files : list (string * list Decl)
}.

(** *** [Name] objects and the pointers to them *)

(** The Go struct [Name]: a [genericTreeNode] and a [Location]. *)
Record Name : Type := mkName {
  name : string;
  path : string;
  color : Color;
  children : list TreeNode;
  filename : string;
  pos : Z
}.

(** [&Name{}] *)
Definition zeroName : Name := mkName "" "" zeroColor [] "" 0.

(** A [Name] (or the [Name] a [*Name] points to) seen as a tree node. *)
Definition nameNode (n : Name) : TreeNode :=
  NameNode (name n) (path n) (color n) (children n) (filename n) (pos n).

(** The local variables of [parsePkg].  [typeMap] and [types] hold [*Name]
    pointers: an address is an index into [heap], the [Name] objects
    allocated so far, so that a write through one pointer is seen through
    every copy of it. *)
Record Locals : Type := mkLocals {
  consts : list TreeNode;
  vars : list TreeNode;
  heap : list Name;
  typeMap : gmap string nat;
  types : list nat;
  funcs : list TreeNode
}.

Definition initLocals : Locals := mkLocals [] [] [] ∅ [] [].

Definition set_consts (st : Locals) (v : list TreeNode) : Locals :=
  mkLocals v (vars st) (heap st) (typeMap st) (types st) (funcs st).
Definition set_vars (st : Locals) (v : list TreeNode) : Locals :=
  mkLocals (consts st) v (heap st) (typeMap st) (types st) (funcs st).
Definition set_heap (st : Locals) (v : list Name) : Locals :=
  mkLocals (consts st) (vars st) v (typeMap st) (types st) (funcs st).
Definition set_typeMap (st : Locals) (v : gmap string nat) : Locals :=
  mkLocals (consts st) (vars st) (heap st) v (types st) (funcs st).
Definition set_types (st : Locals) (v : list nat) : Locals :=
  mkLocals (consts st) (vars st) (heap st) (typeMap st) v (funcs st).
Definition set_funcs (st : Locals) (v : list TreeNode) : Locals :=
  mkLocals (consts st) (vars st) (heap st) (typeMap st) (types st) v.

(** [*p]; a pointer always comes from [lookupOrNew], so the default is
    never taken. *)
Definition deref (h : list Name) (p : nat) : Name := default zeroName (h !! p).

(** A write through the pointer [p]: the object it points to becomes [f] of it. *)
Definition update (h : list Name) (p : nat) (f : Name -> Name) : list Name :=
  <[p := f (deref h p)]> h.

(** [typ, ok := typeMap[key]; if !ok { typ = &Name{}; typeMap[key] = typ }] *)
Definition lookupOrNew (st : Locals) (key : string) : nat * Locals :=
  match typeMap st !! key with
  | Some typ => (typ, st)
  | None =>
      let typ := length (heap st) in
      (typ, set_typeMap (set_heap st (heap st ++ [zeroName]))
                        (<[key := typ]> (typeMap st)))
  end.

(** [func valueNamesFrom(filename, parentName string, specs []ast.Spec)] *)
Definition valueNamesFrom (filename parentName : string) (specs : list Spec)
  : list TreeNode :=
  flat_map
    (fun spec =>
       match spec with
       | ValueSpec names =>
           List.map
             (fun id =>
                nameNode (mkName (id_name id) (parentName ++ "." ++ id_name id)
                                 nameColor [] filename (id_pos id)))
             names
       | _ => []
       end)
    specs.

(** The body of the loop over [f.Decls]; [None] is a run-time panic
    ([src.Specs[0]] or [src.Recv.List[0]] out of range, a failed type
    assertion). *)
Definition parseDecl (pkgName filename : string) (st : Locals) (decl : Decl)
  : option Locals :=
  match decl with
  | BadDecl => Some st
  | GenDecl tok specs =>
      if String.eqb (Token_String tok) "const" then
        Some (set_consts st
                (consts st ++ valueNamesFrom filename (pkgName ++ ".constants") specs))
      else if String.eqb (Token_String tok) "var" then
        Some (set_vars st
                (vars st ++ valueNamesFrom filename (pkgName ++ ".global vars") specs))
      else if String.eqb (Token_String tok) "type" then
        match specs with
        | TypeSpec typeSpec :: _ =>
            let typeName := id_name typeSpec in
            let '(typ, st) := lookupOrNew st typeName in
            let h :=
              update (heap st) typ
                (fun n => mkName typeName (pkgName ++ ".types." ++ typeName)
                                 nameColor (children n) filename (id_pos typeSpec)) in
            Some (set_types (set_heap st h) (types st ++ [typ]))
        | _ => None
        end
      else Some st
  | FuncDecl fname fpos recv =>
      let name := mkName fname (pkgName ++ ".funcs." ++ fname) nameColor []
                         filename fpos in
      match recv with
      | None => Some (set_funcs st (funcs st ++ [nameNode name]))
      | Some [] => None
      | Some (field :: _) =>
          let recvTyp :=
            match Type_ field with StarExpr x => x | t => t end in
          match recvTyp with
          | Ident recvTypeName =>
              let '(typ, st) := lookupOrNew st recvTypeName in
              let name :=
                mkName fname (pkgName ++ ".types." ++ recvTypeName ++ "." ++ fname)
                       nameColor [] filename fpos in
              Some (set_heap st
                      (update (heap st) typ
                         (fun n => mkName (Navigator.name n) (path n) (color n)
                                          (children n ++ [nameNode name])
                                          (Navigator.filename n) (pos n))))
          | _ => None
          end
      end
  end.

(** [for _, decl := range f.Decls] *)
Fixpoint parseDecls (pkgName filename : string) (st : Locals) (decls : list Decl)
  : option Locals :=
  match decls with
  | [] => Some st
  | decl :: rest =>
      match parseDecl pkgName filename st decl with
      | Some st => parseDecls pkgName filename st rest
      | None => None
      end
  end.

(** [for filename, f := range pkg.Files] *)
Fixpoint parseFiles (pkgName : string) (st : Locals)
         (files : list (string * list Decl)) : option Locals :=
  match files with
  | [] => Some st
  | (filename, decls) :: rest =>
      match parseDecls pkgName filename st decls with
      | Some st => parseFiles pkgName st rest
      | None => None
      end
  end.

(** The four groups [parsePkg] hangs under the package node; the [*Name]
    pointers of [types] are read when the tree is. *)
Definition groups (pkgName : string) (st : Locals) : list TreeNode :=
  [ GenericTreeNode "constants" (pkgName ++ ".constants") genericColor (consts st);
    GenericTreeNode "global vars" (pkgName ++ ".global vars") genericColor (vars st);
    GenericTreeNode "types" (pkgName ++ ".types") genericColor
                    (List.map (fun p => nameNode (deref (heap st) p)) (types st));
    GenericTreeNode "funcs" (pkgName ++ ".funcs") genericColor (funcs st) ].

(** [func (t *TOC) parsePkg(pkg *ast.Package) genericTreeNode] *)
Definition parsePkg (pkg : Package) : option TreeNode :=
  match parseFiles (pkg_name pkg) initLocals (pkg_files pkg) with
  | Some st =>
      Some (GenericTreeNode (pkg_name pkg) (pkg_name pkg) skippableColor
                            (groups (pkg_name pkg) st))
  | None => None
  end.

(** The children of the [types] group of a package node. *)
Definition typesOf (pkgNode : TreeNode) : list TreeNode :=
  match node_children pkgNode with
  | [_; _; typesGroup; _] => node_children typesGroup
  | _ => []
  end.

(** [TOC]: a [skippingTreeNode] whose children are the package nodes. *)
Definition newTOC : TreeNode := SkippingTreeNode "" "" zeroColor [].

(** [func (t *TOC) Reload()], given the packages [parser.ParseDir] found:
    each package node is appended to [t.children]. *)
Fixpoint Reload (t : TreeNode) (pkgs : list Package) : option TreeNode :=
  match pkgs with
  | [] => Some t
  | pkg :: rest =>
      match parsePkg pkg with
      | Some node =>
          Reload (SkippingTreeNode (node_name t) (node_path t) (node_color t)
                                   (node_children t ++ [node])) rest
      | None => None
      end
  end.

(** *** Notions the theorems on the outline are stated with *)

(** The declarations of a package in the order the two loops of [parsePkg]
    meet them, each with the name of its file. *)
Definition declsInOrder (files : list (string * list Decl)) : list (string * Decl) :=
  flat_map (fun f => List.map (fun d => (fst f, d)) (snd f)) files.

(** [parsePkg]'s two loops, run over [declsInOrder]. *)
Fixpoint parseInOrder (pkgName : string) (st : Locals) (l : list (string * Decl))
  : option Locals :=
  match l with
  | [] => Some st
  | (filename, decl) :: rest =>
      match parseDecl pkgName filename st decl with
      | Some st => parseInOrder pkgName st rest
      | None => None
      end
  end.

(** The declaration [type T ...] and the method [func (r T) M()] or
    [func (r *T) M()]. *)
Definition typeDecl (T : string) (p : Z) : Decl := GenDecl TYPE [TypeSpec (mkIdent T p)].
Definition methodDecl (ptr : bool) (T M : string) (p : Z) : Decl :=
  FuncDecl M p (Some [mkField (if ptr then StarExpr (Ident T) else Ident T)]).

(** The one node the two declarations should give. *)
Definition typeWithMethod (pkgName T M fT fM : string) (pT pM : Z) : TreeNode :=
  NameNode T (pkgName ++ ".types." ++ T) nameColor
           [NameNode M (pkgName ++ ".types." ++ T ++ "." ++ M) nameColor [] fM pM]
           fT pT.

(** [type Foo struct{}] in [foo.go], [func (f *Foo) Bar() {}] in [bar.go]. *)
Definition fooDecl : Decl := typeDecl "Foo" 18.
Definition barDecl : Decl := methodDecl true "Foo" "Bar" 13.
Definition fooBar : TreeNode :=
  typeWithMethod "foo" "Foo" "Bar" "foo.go" "bar.go" 18 13.

(** A declaration as [parsePkg] reads it: of a [type] declaration, the
    first spec alone. *)
Definition firstSpecOnly (decl : Decl) : Decl :=
  match decl with
  | GenDecl TYPE (spec :: _) => GenDecl TYPE [spec]
  | _ => decl
  end.




(** The package [foo] of one file, [foo.go], with both declarations. *)
Definition fooPkg : Package := mkPackage "foo" [("foo.go", [fooDecl; barDecl])].

(** *** Notions the further theorems on the outline are stated with *)

(** The test of [genericTreeNode.ItemIndex] on one child: the item looked
    up is the child's item, or lies under it in the dotted hierarchy. *)
Definition itemMatches (item : string) (child : TreeNode) : bool :=
  String.eqb item (Item child) || String.prefix (Item child ++ ".") item.

(** What [ItemIndex] promises, [shown] giving the child shown at an index
    if there is one: [r] is the index of the first child shown that
    matches, or -1 when none does. *)
Definition firstMatch (item : string) (shown : Z -> option TreeNode) (r : Z) : Prop :=
  (r = -1 /\ forall j c, shown j = Some c -> itemMatches item c = false)
  \/ (0 <= r
      /\ (exists c, shown r = Some c /\ itemMatches item c = true)
      /\ forall j c, 0 <= j < r -> shown j = Some c -> itemMatches item c = false).

(** The declarations [parsePkg] cannot get through: a [type] declaration
    without a spec or whose first spec is no type spec, a method with an
    empty receiver list, a method whose receiver type is neither an
    identifier nor a pointer to one. *)
Definition panics (decl : Decl) : bool :=
  match decl with
  | GenDecl TYPE (TypeSpec _ :: _) => false
  | GenDecl TYPE _ => true
  | FuncDecl _ _ (Some []) => true
  | FuncDecl _ _ (Some (field :: _)) =>
      match Type_ field with
      | Ident _ | StarExpr (Ident _) => false
      | _ => true
      end
  | _ => false
  end.

(** The names a list of value specs declares, in order. *)
Definition declaredNames (specs : list Spec) : list string :=
  flat_map
    (fun spec =>
       match spec with
       | ValueSpec names => List.map id_name names
       | _ => []
       end)
    specs.

(** The names one declaration gives to each group. *)
Definition constNamesOf (decl : Decl) : list string :=
  match decl with GenDecl CONST specs => declaredNames specs | _ => [] end.
Definition varNamesOf (decl : Decl) : list string :=
  match decl with GenDecl VAR specs => declaredNames specs | _ => [] end.
Definition typeNamesOf (decl : Decl) : list string :=
  match decl with GenDecl TYPE (TypeSpec id :: _) => [id_name id] | _ => [] end.
Definition funcNamesOf (decl : Decl) : list string :=
  match decl with FuncDecl fname _ None => [fname] | _ => [] end.

(** The names a sequence of declarations gives to a group. *)
Definition namesIn (pick : Decl -> list string) (l : list (string * Decl))
  : list string :=
  flat_map (fun fd => pick (snd fd)) l.

(** A leaf of a group: no children, the colour of a name, and the path of
    the group extended by the name. *)
Definition isLeafUnder (parent : string) (t : TreeNode) : Prop :=
  node_children t = []
  /\ node_color t = nameColor
  /\ node_path t = parent ++ "." ++ node_name t.

(** The name of the receiver type of a method, as [parsePkg] reads it off
    the first entry of the receiver list. *)
Definition recvTypeName (fields : list Field) : option string :=
  match fields with
  | field :: _ =>
      match Type_ field with
      | Ident x | StarExpr (Ident x) => Some x
      | _ => None
      end
  | [] => None
  end.

(** The node of a declaration if it is a method on the type [T], and the
    methods on [T] among a sequence of declarations, in order. *)
Definition methodOn (pkgName T : string) (fd : string * Decl) : list TreeNode :=
  match snd fd with
  | FuncDecl m mpos (Some fields) =>
      match recvTypeName fields with
      | Some T' =>
          if String.eqb T' T
          then [NameNode m (pkgName ++ ".types." ++ T' ++ "." ++ m) nameColor []
                         (fst fd) mpos]
          else []
      | None => []
      end
  | _ => []
  end.

Definition methodsOf (pkgName T : string) (l : list (string * Decl)) : list TreeNode :=
  flat_map (methodOn pkgName T) l.

(** The file and the position of a declaration if it declares the type
    [T], and those of the last declaration of [T] in a sequence. *)
Definition typeDeclOf (T : string) (fd : string * Decl) : option (string * Z) :=
  match snd fd with
  | GenDecl TYPE (TypeSpec id :: _) =>
      if String.eqb (id_name id) T then Some (fst fd, id_pos id) else None
  | _ => None
  end.

Fixpoint lastTypeDecl (T : string) (l : list (string * Decl)) : option (string * Z) :=
  match l with
  | [] => None
  | fd :: rest =>
      match lastTypeDecl T rest with
      | Some loc => Some loc
      | None => typeDeclOf T fd
      end
  end.

(** The [Name] that stands for the type [T] once the declarations [l] are
    read: its methods so far, and name, path, colour and place once the
    type itself was declared. *)
Definition cellFor (pkgName T : string) (l : list (string * Decl)) : Name :=
  match lastTypeDecl T l with
  | Some loc =>
      mkName T (pkgName ++ ".types." ++ T) nameColor (methodsOf pkgName T l)
             (fst loc) (snd loc)
  | None => mkName "" "" zeroColor (methodsOf pkgName T l) "" 0
  end.

(** How [parsePkg]'s store stands to the declarations [l] read so far. *)
Definition storeFor (pkgName : string) (st : Locals) (l : list (string * Decl)) : Prop :=
  (forall k p, typeMap st !! k = Some p -> heap st !! p = Some (cellFor pkgName k l))
  /\ (forall k1 k2 p,
         typeMap st !! k1 = Some p -> typeMap st !! k2 = Some p -> k1 = k2)
  /\ (forall k, typeMap st !! k = None -> cellFor pkgName k l = zeroName)
  /\ Forall2 (fun T p => typeMap st !! T = Some p) (namesIn typeNamesOf l) (types st).

(** [const ( a, b = 1, 2; c = 3 )], [type ()], and a method on a generic
    receiver, to try the theorems on. *)
Definition abcDecl : Decl :=
  GenDecl CONST [ValueSpec [mkIdent "a" 7; mkIdent "b" 10]; ValueSpec [mkIdent "c" 20]].
Definition emptyTypeDecl : Decl := GenDecl TYPE [].
Definition genericMethodDecl : Decl := FuncDecl "Len" 40 (Some [mkField OtherExpr]).
Definition mainDecl : Decl := FuncDecl "main" 60 None.

(** [func (b Baz) Len() int], in a package that does not declare [Baz]. *)
Definition genericMethodOnBaz : Decl := FuncDecl "Len" 40 (Some [mkField (Ident "Baz")]).
End Navigator.

(** ** plugin/gosyntax/syntax: the statement walker of stmt.go *)
Module Syntax.
Import GoInt.
Local Open Scope Z_scope.
Local Open Scope string_scope.

(** [token.Pos] is an [int]. *)
Definition Pos : Type := Z.

(** The two [theme] constructs that stmt.go names. *)
Inductive LanguageConstruct : Type := Keyword | Bad.

(** [token.Token], as far as statements go; [OtherToken] carries what
    [String] returns for it. *)
Inductive Token : Type :=
| ILLEGAL | ASSIGN | DEFINE | BREAK | CONTINUE | GOTO | FALLTHROUGH
| OtherToken (str : string).

Definition Token_String (t : Token) : string :=
  match t with
  | ILLEGAL => "ILLEGAL" | ASSIGN => "=" | DEFINE => ":="
  | BREAK => "break" | CONTINUE => "continue" | GOTO => "goto"
  | FALLTHROUGH => "fallthrough" | OtherToken str => str
  end.

(** What stmt.go calls and does not define, taken as parameters: the
    methods of [*Syntax] kept in other files, and [log.Printf].  [State] is
    what they act on, the [*Syntax] being filled together with the log;
    [Expr], [CallExpr], [Decl] and [CommClause] are the nodes handed to the
    walkers of other files.  [addNode] is given the [Pos] and the [End] of
    its node; [rainbowScope] returns the function that the caller defers. *)
Class Walker : Type := {
  State : Type;
  Expr : Type;
  CallExpr : Type;
  Decl : Type;
  CommClause : Type;
  add : LanguageConstruct -> Pos -> Z -> State -> State;
  addNode : LanguageConstruct -> Pos -> Pos -> State -> State;
  rainbowScope : Pos -> Z -> Pos -> Z -> State -> State * (State -> State);
  addExpr : Expr -> State -> State;
  addCallExpr : CallExpr -> State -> State;
  addDecl : Decl -> State -> State;
  addCommClause : CommClause -> State -> State;
  logPrintf : string -> State -> State
}.

Section Statements.
Context {W : Walker}.

(** [ast.Stmt]: [NilStmt] is the nil interface value, [OtherStmt] any
    implementation of the interface outside the list of the [switch],
    with the name [%T] prints for it.  A [Body] is never nil in a tree
    the parser returns. *)
Inductive Stmt : Type :=
| NilStmt
| BadStmt (From To : Pos)
| AssignStmt (Lhs Rhs : list Expr)
| CommClauseStmt (c : CommClause)
| SwitchStmt (Switch : Pos) (Init : Stmt) (Tag : Expr) (Body : BlockStmt)
| TypeSwitchStmt (Switch : Pos) (Init Assign : Stmt) (Body : BlockStmt)
| CaseClause (Case : Pos) (List_ : option (list Expr)) (Body : list Stmt)
| DeclStmt (d : Decl)
| SendStmt (Chan Value : Expr)
| SelectStmt (Select : Pos) (Body : BlockStmt)
| ReturnStmt (Return : Pos) (Results : list Expr)
| RangeStmt (For : Pos) (Key Value : Expr) (TokPos : Pos) (Tok : Token)
            (X : Expr) (Body : BlockStmt)
| LabeledStmt (Stmt_ : Stmt)
| IncDecStmt (X : Expr)
| IfStmt (If : Pos) (Init : Stmt) (Cond : Expr) (Body : BlockStmt) (Else : Stmt)
| GoStmt (Go : Pos) (Call : CallExpr)
| ForStmt (For : Pos) (Init : Stmt) (Cond : Expr) (Post : Stmt) (Body : BlockStmt)
| ExprStmt (X : Expr)
| EmptyStmt
| DeferStmt (Defer : Pos) (Call : CallExpr)
| BranchStmt (TokPos : Pos) (Tok : Token)
| Block (b : BlockStmt)
| OtherStmt (typeName : string)
with BlockStmt : Type :=
| mkBlock (Lbrace : Pos) (List_ : list Stmt) (Rbrace : Pos).

Definition Lbrace (b : BlockStmt) : Pos := let '(mkBlock l _ _) := b in l.
Definition List_ (b : BlockStmt) : list Stmt := let '(mkBlock _ l _) := b in l.
Definition Rbrace (b : BlockStmt) : Pos := let '(mkBlock _ _ r) := b in r.

(** [go/ast]: the end of a block is the position after its closing brace. *)
Definition BlockStmt_End (b : BlockStmt) : Pos := GoInt.add (Rbrace b) 1.

(** [for _, expr := range exprs { s.addExpr(expr) }] *)
Definition addExprs (exprs : list Expr) (s : State) : State :=
  fold_left (fun s expr => addExpr expr s) exprs s.

(** The [switch stmt.Tok] of [addRangeStmt]; [rangeStart] keeps its zero
    value when no case applies. *)
Definition rangeStart (For TokPos : Pos) (Tok : Token) : Pos :=
  match Tok with
  | ILLEGAL => GoInt.add For (slen "for ")
  | ASSIGN => GoInt.add TokPos (slen "= ")
  | DEFINE => GoInt.add TokPos (slen ":= ")
  | _ => 0
  end.

(** [func (s *Syntax) addStmt(stmt ast.Stmt)] with the methods it
    dispatches to, and [func (s *Syntax) addBlockStmt(stmt *ast.BlockStmt)]. *)
Fixpoint addStmt (stmt : Stmt) (s : State) {struct stmt} : State :=
  match stmt with
  | NilStmt => s
  | BadStmt From To => addNode Bad From To s
  | AssignStmt Lhs Rhs => addExprs Rhs (addExprs Lhs s)
  | CommClauseStmt c => addCommClause c s
  | SwitchStmt Switch Init Tag Body =>
      let s := add Keyword Switch (slen "switch") s in
      let s := addStmt Init s in
      let s := addExpr Tag s in
      addBlockStmt Body s
  | TypeSwitchStmt Switch Init Assign Body =>
      let s := add Keyword Switch (slen "switch") s in
      let s := addStmt Init s in
      let s := addStmt Assign s in
      addBlockStmt Body s
  | CaseClause Case List_ Body =>
      let length := match List_ with None => slen "default" | Some _ => slen "case" end in
      let s := add Keyword Case length s in
      let s := addExprs (default [] List_) s in
      (fix loop (l : list Stmt) (s : State) : State :=
         match l with
         | [] => s
         | stmt :: rest => loop rest (addStmt stmt s)
         end) Body s
  | DeclStmt d => addDecl d s
  | SendStmt Chan Value => addExpr Value (addExpr Chan s)
  | SelectStmt Select Body =>
      let s := add Keyword Select (slen "select") s in
      addBlockStmt Body s
  | ReturnStmt Return Results =>
      let s := add Keyword Return (slen "return") s in
      addExprs Results s
  | RangeStmt For Key Value TokPos Tok X Body =>
      let s := add Keyword For (slen "for") s in
      let s := addExpr Key s in
      let s := addExpr Value s in
      let s := add Keyword (rangeStart For TokPos Tok) (slen "range") s in
      let s := addExpr X s in
      addBlockStmt Body s
  | LabeledStmt Stmt_ => addStmt Stmt_ s
  | IncDecStmt X => addExpr X s
  | IfStmt If Init Cond Body Else =>
      let s := add Keyword If (slen "if") s in
      let s := addStmt Init s in
      let s := addExpr Cond s in
      let s := addBlockStmt Body s in
      let s := match Else with
               | NilStmt => s
               | _ => add Keyword (GoInt.add (BlockStmt_End Body) 1) (slen "else") s
               end in
      addStmt Else s
  | GoStmt Go Call =>
      let s := add Keyword Go (slen "go") s in
      addCallExpr Call s
  | ForStmt For Init Cond Post Body =>
      let s := add Keyword For (slen "for") s in
      let s := addStmt Init s in
      let s := addExpr Cond s in
      let s := addStmt Post s in
      addBlockStmt Body s
  | ExprStmt X => addExpr X s
  | EmptyStmt => s
  | DeferStmt Defer Call =>
      let s := add Keyword Defer (slen "defer") s in
      addCallExpr Call s
  | BranchStmt TokPos Tok => add Keyword TokPos (slen (Token_String Tok)) s
  | Block b => addBlockStmt b s
  | OtherStmt typeName => logPrintf ("Error: Unknown stmt type: " ++ typeName) s
  end
with addBlockStmt (stmt : BlockStmt) (s : State) {struct stmt} : State :=
  match stmt with
  | mkBlock Lbrace List_ Rbrace =>
      let '(s, close) := rainbowScope Lbrace 1 Rbrace 1 s in
      let s :=
        (fix loop (l : list Stmt) (s : State) : State :=
           match l with
           | [] => s
           | stmt :: rest => loop rest (addStmt stmt s)
           end) List_ s in
      close s
  end.



(** [func (s *Syntax) addRangeStmt(stmt *ast.RangeStmt)] *)
Definition addRangeStmt (For : Pos) (Key Value : Expr) (TokPos : Pos) (Tok : Token)
           (X : Expr) (Body : BlockStmt) (s : State) : State :=
  addStmt (RangeStmt For Key Value TokPos Tok X Body) s.

(** [func (s *Syntax) addIfStmt(stmt *ast.IfStmt)] *)
Definition addIfStmt (If : Pos) (Init : Stmt) (Cond : Expr) (Body : BlockStmt)
           (Else : Stmt) (s : State) : State :=
  addStmt (IfStmt If Init Cond Body Else) s.
End Statements.

(** *** A walker that writes down what it is asked to record *)

(** One entry per call of a parameter of [Walker], in the order of the
    calls. *)
Inductive Event : Type :=
| EvAdd (c : LanguageConstruct) (pos : Pos) (length : Z)
| EvAddNode (c : LanguageConstruct) (pos end_ : Pos)
| EvScopeOpen (lbrace : Pos) (llen : Z) (rbrace : Pos) (rlen : Z)
| EvScopeClose (lbrace rbrace : Pos)
| EvExpr (e : string)
| EvCallExpr (e : string)
| EvDecl (d : string)
| EvCommClause (c : string)
| EvLog (msg : string).

Definition record (e : Event) (s : list Event) : list Event := (s ++ [e])%list.

(** Modelled from the spec: the methods of [*Syntax] defined outside
    stmt.go.  [add] records a span of the given category anchored at the
    given position, of the given length; [addNode] the extent of a node;
    [rainbowScope] opens a brace scope and returns the function that closes
    it; the walkers of expressions, calls, declarations and communication
    clauses, and [log.Printf], leave one entry each. *)
Definition Recorder : Walker := {|
  State := list Event;
  Expr := string;
  CallExpr := string;
  Decl := string;
  CommClause := string;
  add := fun c pos length => record (EvAdd c pos length);
  addNode := fun c pos end_ => record (EvAddNode c pos end_);
  rainbowScope := fun lbrace llen rbrace rlen s =>
    (record (EvScopeOpen lbrace llen rbrace rlen) s,
     record (EvScopeClose lbrace rbrace));
  addExpr := fun e => record (EvExpr e);
  addCallExpr := fun e => record (EvCallExpr e);
  addDecl := fun d => record (EvDecl d);
  addCommClause := fun c => record (EvCommClause c);
  logPrintf := fun msg => record (EvLog msg)
|}.

(** The number of scopes that a record leaves open. *)
Fixpoint openScopes (s : list Event) : Z :=
  match s with
  | [] => 0
  | EvScopeOpen _ _ _ _ :: rest => openScopes rest + 1
  | EvScopeClose _ _ :: rest => openScopes rest - 1
  | _ :: rest => openScopes rest
  end.

(** An if statement with nested blocks and an unknown statement. *)
Definition nestedIf : @Stmt Recorder :=
  @IfStmt Recorder 0 NilStmt "x"%string
    (mkBlock 5 [ OtherStmt "*ast.FooStmt";
                 @ForStmt Recorder 8 NilStmt "ok"%string NilStmt
                          (mkBlock 15 [EmptyStmt] 17) ]
             20)
    (Block (mkBlock 27 [ReturnStmt 29 []] 36)).

(** [for i := range xs {}] with [for] at offset 10. *)
Definition rangeOverXs_body : @BlockStmt Recorder := mkBlock 28 [] 29.

(** [if x {} else {}] with [if] at offset 0: the closing brace of the body
    is at 6, [else] at 8. *)
Definition ifElse_body : @BlockStmt Recorder := mkBlock 5 [] 6.
Definition ifElse_else : @Stmt Recorder := Block (mkBlock 13 [] 14).
End Syntax.

(** ** navigator/project_tree.go: the reload gate of [ProjectTree.update] *)
Module Reload.

(** [reloadLock: make(chan struct{}, 1)] in [NewProjectTree]: the capacity
    of the channel. *)
Definition reloadLockCap : nat := 1.

(** Where a call of [update], started by [go p.update(e.Path)], stands. *)
Inductive Pc : Type :=
| AtSelect      (** about to run the [select] *)
| AtDirsUpdate  (** sent on [reloadLock]; before [CallSync(p.dirs.update)] *)
| AtTOC         (** before the test of [toc] *)
| AtTOCReload   (** before [CallSync(toc.Reload)] *)
| AtRelease     (** body done; the deferred receive is pending *)
| Dropped       (** returned from the [default] branch *)
| Finished.     (** returned after the deferred receive *)

(** The part of a [ProjectTree] the gate consists of: the number of values
    buffered in [reloadLock], and the calls of [update] started so far. *)
Record ProjectTree : Type := mkTree { reloadLock : nat; calls : list Pc }.

(** [NewProjectTree]: an empty channel, no call yet. *)
Definition NewProjectTree : ProjectTree := mkTree 0 [].

(** A call is in flight from its send on [reloadLock] to its deferred
    receive. *)
Definition holdsGate (pc : Pc) : bool :=
  match pc with
  | AtDirsUpdate | AtTOC | AtTOCReload | AtRelease => true
  | AtSelect | Dropped | Finished => false
  end.

Fixpoint inFlight (l : list Pc) : nat :=
  match l with
  | [] => 0
  | pc :: rest => (if holdsGate pc then 1 else 0) + inFlight rest
  end.

(** The calls that are reloading the outline. *)
Fixpoint reloading (l : list Pc) : nat :=
  match l with
  | [] => 0
  | pc :: rest => (match pc with AtTOCReload => 1 | _ => 0 end) + reloading rest
  end.

(** One step of the call number [i]. *)
Inductive step_call (i : nat) : ProjectTree -> ProjectTree -> Prop :=
| step_send (p : ProjectTree) :
    (** [case p.reloadLock <- struct{}{}:] the buffer has room *)
    calls p !! i = Some AtSelect ->
    reloadLock p < reloadLockCap ->
    step_call i p (mkTree (S (reloadLock p)) (<[i := AtDirsUpdate]> (calls p)))
| step_default (p : ProjectTree) :
    (** [default: return] the buffer is full *)
    calls p !! i = Some AtSelect ->
    reloadLockCap <= reloadLock p ->
    step_call i p (mkTree (reloadLock p) (<[i := Dropped]> (calls p)))
| step_dirs_update (p : ProjectTree) :
    calls p !! i = Some AtDirsUpdate ->
    step_call i p (mkTree (reloadLock p) (<[i := AtTOC]> (calls p)))
| step_toc_under_path (p : ProjectTree) :
    (** [toc != nil && strings.HasPrefix(path, toc.dir)] *)
    calls p !! i = Some AtTOC ->
    step_call i p (mkTree (reloadLock p) (<[i := AtTOCReload]> (calls p)))
| step_toc_elsewhere (p : ProjectTree) :
    calls p !! i = Some AtTOC ->
    step_call i p (mkTree (reloadLock p) (<[i := AtRelease]> (calls p)))
| step_toc_reload (p : ProjectTree) :
    calls p !! i = Some AtTOCReload ->
    step_call i p (mkTree (reloadLock p) (<[i := AtRelease]> (calls p)))
| step_release (p : ProjectTree) (n : nat) :
    (** [defer func() { <-p.reloadLock }()]: a receive needs a buffered value *)
    calls p !! i = Some AtRelease ->
    reloadLock p = S n ->
    step_call i p (mkTree n (<[i := Finished]> (calls p))).

(** A step of the whole: [watch] starts a call for an event, or one of
    the calls moves. *)
Inductive step : ProjectTree -> ProjectTree -> Prop :=
| step_go (p : ProjectTree) :
    step p (mkTree (reloadLock p) (calls p ++ [AtSelect]))
| step_run (i : nat) (p p' : ProjectTree) :
    step_call i p p' -> step p p'.

Definition reachable (p : ProjectTree) : Prop := rtc step NewProjectTree p.

Definition b2n (b : bool) : nat := if b then 1 else 0.

(** The gate's invariant: the values buffered in [reloadLock] are the calls
    in flight, and the buffer never exceeds its capacity. *)
Definition gate_inv (p : ProjectTree) : Prop :=
  inFlight (calls p) = reloadLock p /\ reloadLock p <= reloadLockCap.

(** Two events; the first call holds the gate and reloads the outline while
    the second reaches the [select]. *)
Definition oneReloading : ProjectTree := mkTree 1 [AtTOCReload; AtSelect].
End Reload.

(** ** core/internal/editor/tabbed_editor.go: tabs of editors *)
Module Editor.
Import GoInt.
Local Open Scope Z_scope.

(** [ui.Direction], declared outside these sources: the two directions that
    [EditorAt] names, and the others. *)
Inductive Direction : Type := Up | Down | Left | Right.

(** The [switch d] of [EditorAt]: from the index of the selected panel to
    the index of the panel to return, among [panels] panels. *)
Definition switchIndex (panels idx : Z) (d : Direction) : Z :=
  match d with
  | Right =>
      let idx := GoInt.add idx 1 in
      if idx =? panels then 0 else idx
  | Left =>
      let idx := GoInt.sub idx 1 in
      if idx <? 0 then GoInt.sub panels 1 else idx
  | _ => idx
  end.

(** The panel holder that [TabbedEditor] embeds is the toolkit's: the
    panels in their order, and the index of the selected one, -1 when no
    panel is selected. *)
Record PanelHolder (Panel : Type) : Type := mkHolder {
  panels : list Panel;
  selected : Z
}.
Arguments mkHolder {Panel} _ _.
Arguments panels {Panel} _.
Arguments selected {Panel} _.

(** [e.Panel(idx)]; [None] is the index-out-of-range panic. *)
Definition PanelAt {Panel : Type} (e : PanelHolder Panel) (idx : Z) : option Panel :=
  if idx <? 0 then None else nth_error (panels e) (Z.to_nat idx).

(** The result of a call that returns an editor: a panic, nil, or an
    editor. *)
Inductive Returned (Panel : Type) : Type :=
| Panicked
| Nil
| Returns (panel : Panel).
Arguments Panicked {Panel}.
Arguments Nil {Panel}.
Arguments Returns {Panel} _.

(** [func (e *TabbedEditor) CurrentEditor() input.Editor] *)
Definition CurrentEditor {Panel : Type} (e : PanelHolder Panel) : Returned Panel :=
  match PanelAt e (selected e) with
  | None => Nil
  | Some panel => Returns panel
  end.

(** [func (e *TabbedEditor) EditorAt(d ui.Direction) input.Editor] *)
Definition EditorAt {Panel : Type} (e : PanelHolder Panel) (d : Direction)
  : Returned Panel :=
  let panels := len (panels e) in
  if panels <? 2 then CurrentEditor e
  else
    match PanelAt e (switchIndex panels (selected e) d) with
    | None => Panicked
    | Some panel => Returns panel
    end.

(** [strings.TrimPrefix(s, prefix)]: [s] without the leading [prefix], or
    [s] itself when it does not start with [prefix]. *)
Fixpoint stripPrefix (prefix s : string) : option string :=
  match prefix, s with
  | EmptyString, _ => Some s
  | String a prefix, String b s => if Ascii.eqb a b then stripPrefix prefix s else None
  | String _ _, EmptyString => None
  end.

Definition TrimPrefix (s prefix : string) : string :=
  match stripPrefix prefix s with
  | Some rest => rest
  | None => s
  end.

(** [func relPath(from, path string) string], for the path separator of the
    platform, [filepath.Separator]; [None] is the panic of [rel[0]] on the
    empty string. *)
Definition relPath (Separator : ascii) (from path : string) : option string :=
  match TrimPrefix path from with
  | EmptyString => None
  | String c rest => Some (if Ascii.eqb c Separator then rest else String c rest)
  end.

(** Three tabs, the last one selected. *)
Definition threeTabs : PanelHolder string := mkHolder ["a.go"; "b.go"; "c.go"] 2.
End Editor.

(** ** commands/project_opener.go: opening a project by its name *)
Module Commands.
Local Open Scope string_scope.

(** [settings.Project], declared outside these sources; [Exec] reads its
    [Name]. *)
Record Project : Type := mkProject { Name : string; Path : string }.

(** [var proj settings.Project] *)
Definition zeroProject : Project := mkProject "" "".

(** [for _, proj = range settings.Projects() { if proj.Name == text { break } }]:
    the value of [proj] after the loop, from its value before. *)
Fixpoint afterLoop (projects : list Project) (text : string) (proj : Project)
  : Project :=
  match projects with
  | [] => proj
  | next :: rest =>
      if String.eqb (Name next) text then next else afterLoop rest text next
  end.

(** What [Exec] returns, and the project it hands to [SetProject] if it
    calls it. *)
Record Outcome : Type := mkOutcome {
  executed : bool;
  consume : bool;
  setProject : option Project
}.

(** [func (p *ProjectOpener) Exec(element interface{}) (executed, consume bool)]:
    [isSetter] tells whether [element] is a [projectSetter], [projects] is
    [settings.Projects()] and [text] is [p.name.Text()]. *)
Definition Exec (isSetter : bool) (projects : list Project) (text : string)
  : Outcome :=
  if negb isSetter then mkOutcome false false None
  else
    let proj := afterLoop projects text zeroProject in
    if negb (String.eqb (Name proj) text) then mkOutcome false false None
    else mkOutcome true false (Some proj).
End Commands.

(** ** main.go: the font of the editor *)
Module Main.

(** [setting.Font], declared outside these sources. *)
Record Font : Type := mkFont { Name : string; Size : Z }.

(** What [font] writes to the log. *)
Inductive LogEntry (Error : Type) : Type :=
| FailedToRead (err : Error)
| CouldNotParse (err : Error).
Arguments FailedToRead {Error} _.
Arguments CouldNotParse {Error} _.

Section Fonts.
(** The readers, the bytes read, the fonts of the toolkit and the errors,
    with [fonts.Load], [ioutil.ReadAll] and [driver.CreateFont]. *)
Variables Reader Bytes GFont Error : Type.
Variable Load : string -> Reader + Error.
Variable ReadAll : Reader -> Bytes + Error.
Variable CreateFont : Bytes -> Z -> GFont + Error.

(** [for _, font = range desiredFonts { fontReader, err = fonts.Load(font.Name);
    if err == nil { break } }]: the values of [font] and of the result of
    the last [Load] after the loop. *)
Fixpoint afterLoads (desiredFonts : list Font) (font : Font) (loaded : Reader + Error)
  : Font * (Reader + Error) :=
  match desiredFonts with
  | [] => (font, loaded)
  | next :: rest =>
      match Load (Name next) with
      | inl reader => (next, inl reader)
      | inr err => afterLoads rest next (inr err)
      end
  end.

(** [func font(driver gxui.Driver) gxui.Font], given [setting.DesiredFonts()];
    [None] is nil.  The list is not empty when the loop is reached, so the
    first [Load] is written out and [afterLoads] runs over the rest. *)
Definition font (desiredFonts : list Font) : option GFont * list (LogEntry Error) :=
  match desiredFonts with
  | [] => (None, [])
  | first :: rest =>
      match Load (Name first) with
      | inl reader0 =>
          match ReadAll reader0 with
          | inr err => (None, [FailedToRead err])
          | inl fontBytes =>
              match CreateFont fontBytes (Size first) with
              | inr err => (None, [CouldNotParse err])
              | inl gFont => (Some gFont, [])
              end
          end
      | inr err0 =>
          let '(font, loaded) := afterLoads rest first (inr err0) in
          match loaded with
          | inr _ => (None, [])
          | inl reader =>
              match ReadAll reader with
              | inr err => (None, [FailedToRead err])
              | inl fontBytes =>
                  match CreateFont fontBytes (Size font) with
                  | inr err => (None, [CouldNotParse err])
                  | inl gFont => (Some gFont, [])
                  end
              end
          end
      end
  end.

(** Whether a font can be loaded. *)
Definition loads (f : Font) : bool :=
  match Load (Name f) with inl _ => true | inr _ => false end.
End Fonts.

(** Fonts to try [font] on: readers, bytes and errors are texts, a font of
    the toolkit is its bytes with a size; two of the three desired fonts
    can be loaded. *)
Definition sampleLoad (name : string) : string + string :=
  if ((name =? "Inconsolata") || (name =? "Mono"))%string
  then inl (name ++ ".ttf")%string
  else inr "not found"%string.

Definition sampleReadAll (reader : string) : string + string := inl reader.

Definition sampleCreateFont (fontBytes : string) (size : Z)
  : (string * Z) + string :=
  inl (fontBytes, size).

Definition sampleFont : list Font -> option (string * Z) * list (LogEntry string) :=
  font string string (string * Z) string sampleLoad sampleReadAll sampleCreateFont.
End Main.

(** ** navigator: the tree of directories *)
Module Directory.
Import GoInt.
Local Open Scope Z_scope.

(** [os.FileInfo]: the two methods that are called. *)
Record FileInfo : Type := mkFileInfo { Name : string; IsDir : bool }.

(** The loop of [reload]: [children++] for every directory. *)
Fixpoint countDirs (finfos : list FileInfo) (children : Z) : Z :=
  match finfos with
  | [] => children
  | finfo :: rest =>
      countDirs rest (if IsDir finfo then GoInt.add children 1 else children)
  end.

(** [func (d *directory) updateExpandable(children int64)]: what the button
    is set to. *)
Definition updateExpandable (children : Z) : bool :=
  if children =? 0 then false else true.

(** [func (d *dirTree) parse(finfos []os.FileInfo, w Watcher)]: the paths of
    the directories created and added as children, [Join] being
    [filepath.Join]. *)
Fixpoint parse (Join : string -> string -> string) (path : string)
         (finfos : list FileInfo) : list string :=
  match finfos with
  | [] => []
  | finfo :: rest =>
      if negb (IsDir finfo) then parse Join path rest
      else if String.prefix "." (Name finfo) then parse Join path rest
      else Join path (Name finfo) :: parse Join path rest
  end.

(** The part of a [directory] that [reload] sets: whether its button can be
    expanded, its [length], and the children of its tree. *)
Record directory : Type := mkDirectory {
  path : string;
  expandable : bool;
  length : Z;
  attached : bool;
  dirs : list string
}.

(** [func (d *directory) reload()], given what [ioutil.ReadDir] returns;
    [None] is its error, after which nothing is changed. *)
Definition reload (Join : string -> string -> string) (d : directory)
           (readDir : option (list FileInfo)) : directory :=
  match readDir with
  | None => d
  | Some finfos =>
      let children := countDirs finfos 0 in
      mkDirectory (path d) (updateExpandable children) children (attached d)
                  (if attached d then parse Join (path d) finfos else dirs d)
  end.

(** The directories of a listing whose names start with a dot. *)
Definition hiddenDirs (finfos : list FileInfo) : list FileInfo :=
  List.filter (fun finfo => IsDir finfo && String.prefix "." (Name finfo)) finfos.

(** The directories of a listing that [parse] shows. *)
Definition shownDirs (finfos : list FileInfo) : list FileInfo :=
  List.filter (fun finfo => IsDir finfo && negb (String.prefix "." (Name finfo))) finfos.

(** A checkout with nothing but a [.git] directory and a file. *)
Definition onlyGit : list FileInfo :=
  [ mkFileInfo ".git" true; mkFileInfo "README" false ].
End Directory.

(** ** navigator/project_tree.go: watching the directories of a project *)
Module Watch.
Import GoInt.
Local Open Scope Z_scope.

(** [const maxWatchDirs = 4096] *)
Definition maxWatchDirs : Z := 4096.

(** What [filepath.Walk] finds under the root at the time of the walk: files
    and directories by their base names, the entries of a directory in the
    order of the walk, and entries whose information cannot be read, for
    which the function of the walk is called with an error. *)
Inductive Entry : Type :=
| File (base : string)
| Dir (base : string) (entries : list Entry)
| Unreadable (base : string).

Definition base (e : Entry) : string :=
  match e with File b | Dir b _ | Unreadable b => b end.

(** A path, by its elements from the root down. *)
Definition Path : Type := list string.

(** What the function given to [filepath.Walk] returns: nil,
    [filepath.SkipDir], or another error. *)
Inductive WalkResult : Type := Continue | SkipDir | Failed.

(** The watcher and the counter of [startWatch]: the directories added so
    far, and whether the watcher was closed. *)
Record Watching : Type := mkWatching {
  count : Z;
  added : list Path;
  closed : bool
}.

(** [filepath.Base(path)[0] == '.'] *)
Definition dotName (name : string) : bool := String.prefix "." name.

(** The function literal that [startWatch] gives to [filepath.Walk]. *)
Definition visit (e : Entry) (path : Path) (w : Watching) : WalkResult * Watching :=
  match e with
  | Unreadable _ => (Failed, w)
  | File _ =>
      if count w >? maxWatchDirs
      then (Failed, mkWatching (count w) (added w) true)
      else (Continue, w)
  | Dir name _ =>
      if dotName name then (SkipDir, w)
      else
        let w := mkWatching (GoInt.add (count w) 1) (added w ++ [path]) (closed w) in
        if count w >? maxWatchDirs
        then (Failed, mkWatching (count w) (added w) true)
        else (Continue, w)
  end.

(** [filepath.Walk] below its root: the function is called on an entry
    before its contents; [SkipDir] from a directory skips its contents, from
    anything else the rest of the directory it is in; any other error ends
    the walk. *)
Fixpoint walk (e : Entry) (path : Path) (w : Watching) {struct e}
  : WalkResult * Watching :=
  match e with
  | Dir _ entries =>
      match visit e path w with
      | (Continue, w) =>
          (fix walkAll (entries : list Entry) (w : Watching) {struct entries}
             : WalkResult * Watching :=
             match entries with
             | [] => (Continue, w)
             | x :: rest =>
                 match walk x (path ++ [base x]) w, x with
                 | (Continue, w), _ => walkAll rest w
                 | (SkipDir, w), Dir _ _ => walkAll rest w
                 | (r, w), _ => (r, w)
                 end
             end) entries w
      | (r, w) => (r, w)
      end
  | _ => visit e path w
  end.

(** The loop of the walk over the entries of a directory. *)
Fixpoint walkAll (path : Path) (entries : list Entry) (w : Watching)
  : WalkResult * Watching :=
  match entries with
  | [] => (Continue, w)
  | x :: rest =>
      match walk x (path ++ [base x]) w, x with
      | (Continue, w), _ => walkAll path rest w
      | (SkipDir, w), Dir _ _ => walkAll path rest w
      | (r, w), _ => (r, w)
      end
  end.






End Watch.

(** ** settings: key bindings *)
Module Settings.
Local Open Scope Z_scope.

(** [gxui.KeyboardEvent], declared outside these sources: a key, by its
    number, and the bits of the modifiers. *)
Record KeyboardEvent : Type := mkEvent { Key : nat; Modifier : Z }.

(** What [parseBinding] writes to the log. *)
Inductive LogEntry : Type :=
| SuperNotBound (eventPattern : string)
| ModifierNotUnderstood (key : string)
| KeyNotUnderstood (key : string).

(** [strings.Split(s, "-")]: the parts of [s] between the dashes, at least
    one part. *)
Fixpoint Split (s : string) : list string :=
  match s with
  | EmptyString => [EmptyString]
  | String c rest =>
      if Ascii.eqb c "-" then EmptyString :: Split rest
      else match Split rest with
           | part :: parts => String c part :: parts
           | [] => [String c EmptyString]
           end
  end.

Section Bindings.
(** [strings.ToLower]; of the toolkit, the names of the keys
    ([gxui.KeyboardKey.String]), the number of keys ([gxui.KeyLast]) and
    the bits of the modifiers. *)
Variable ToLower : string -> string.
Variable KeyString : nat -> string.
Variable KeyLast : nat.
Variables ModShift ModControl ModAlt ModSuper : Z.

(** [event.Modifier.Control()] *)
Definition Control (m : Z) : bool := negb (Z.land m ModControl =? 0).

(** [for _, key := range modifiers { switch key { ... } }]: the modifier of
    the event after the loop, or [None] where the loop returns nil. *)
Fixpoint addModifiers (eventPattern : string) (modifiers : list string)
         (modifier : Z) (log : list LogEntry) : option Z * list LogEntry :=
  match modifiers with
  | [] => (Some modifier, log)
  | key :: rest =>
      if ((key =? "ctrl") || (key =? "cmd"))%string then
        addModifiers eventPattern rest (Z.lor modifier ModControl) log
      else if (key =? "alt")%string then
        addModifiers eventPattern rest (Z.lor modifier ModAlt) log
      else if (key =? "shift")%string then
        addModifiers eventPattern rest (Z.lor modifier ModShift) log
      else if (key =? "super")%string then
        (None, (log ++ [SuperNotBound eventPattern])%list)
      else
        addModifiers eventPattern rest modifier
                     (log ++ [ModifierNotUnderstood key])%list
  end.

(** [for k := gxui.KeyboardKey(0); k < gxui.KeyLast; k++]: the first key
    from [k] on, among [n], whose name in lower case is [key]. *)
Fixpoint findKey (key : string) (k : nat) (n : nat) : option nat :=
  match n with
  | O => None
  | S n' =>
      if (ToLower (KeyString k) =? key)%string then Some k
      else findKey key (S k) n'
  end.

(** [func parseBinding(eventPattern string) []gxui.KeyboardEvent], with what
    it logs; nil is the empty list. *)
Definition parseBinding (eventPattern : string)
  : list KeyboardEvent * list LogEntry :=
  let eventPattern := ToLower eventPattern in
  let keys := Split eventPattern in
  let modifiers := removelast keys in
  let key := List.last keys EmptyString in
  match addModifiers eventPattern modifiers 0 [] with
  | (None, log) => ([], log)
  | (Some modifier, log) =>
      match findKey key 0 KeyLast with
      | Some k =>
          let event := mkEvent k modifier in
          if Control modifier
          then ([event;
                 mkEvent k (Z.lor (Z.ldiff modifier ModControl) ModSuper)], log)
          else ([event], log)
      | None => ([], (log ++ [KeyNotUnderstood key])%list)
      end
  end.

(** The modifiers and the key that a pattern names. *)
Definition modifiersOf (eventPattern : string) : list string :=
  removelast (Split (ToLower eventPattern)).

Definition keyOf (eventPattern : string) : string :=
  List.last (Split (ToLower eventPattern)) EmptyString.

(** Whether a modifier is among those of a pattern. *)
Definition has (name : string) (modifiers : list string) : bool :=
  existsb (fun key => (key =? name)%string) modifiers.

(** The bits for the modifiers of a pattern, with [control] for ctrl and
    cmd. *)
Definition modifierWith (control : Z) (modifiers : list string) : Z :=
  Z.lor (if has "ctrl" modifiers || has "cmd" modifiers then control else 0)
        (Z.lor (if has "alt" modifiers then ModAlt else 0)
               (if has "shift" modifiers then ModShift else 0)).

(** The first key whose name in lower case is [key]. *)
Definition keyNamed (key : string) : option nat :=
  List.find (fun k => (ToLower (KeyString k) =? key)%string) (seq 0 KeyLast).
End Bindings.

(** Lower case for the letters A to Z, and a toolkit with three keys and
    one bit for each modifier. *)
Definition lowerAscii (c : ascii) : ascii :=
  let n := nat_of_ascii c in
  if ((65 <=? n) && (n <=? 90))%nat then ascii_of_nat (n + 32) else c.

Fixpoint lower (s : string) : string :=
  match s with
  | EmptyString => EmptyString
  | String c rest => String (lowerAscii c) (lower rest)
  end.

Definition threeKeys (k : nat) : string :=
  match k with
  | O => "Unknown"
  | 1%nat => "N"
  | _ => "Tab"
  end.

Definition parseSample : string -> list KeyboardEvent * list LogEntry :=
  parseBinding lower threeKeys 3 1 2 4 8.
End Settings.

(* ===================================================================== *)
(** * Part II: theorems *)
(* ===================================================================== *)

Section GoIntFacts.
Import GoInt.
Local Open Scope Z_scope.

Lemma wrap_in_range (x : Z) : min_int <= x <= max_int -> wrap x = x.
Proof.
  unfold wrap, min_int, max_int. intros H.
  rewrite Z.mod_small by lia. lia.
Qed.

Lemma len_nonneg {A : Type} (l : list A) : 0 <= len l.
Proof. unfold len. lia. Qed.
End GoIntFacts.

Section Repositioning.
Import GoInt Gosyntax.
Local Open Scope Z_scope.

Lemma growth_nonneg (edits : list Edit) : 0 <= growth edits.
Proof. induction edits as [|e rest IH]; simpl; lia. Qed.

Lemma delta_exact (e : Edit) :
  len (Old e) <= max_int -> len (New e) <= max_int ->
  delta e = len (New e) - len (Old e).
Proof.
  intros HO HN. unfold delta, sub. apply wrap_in_range.
  pose proof (len_nonneg (Old e)). pose proof (len_nonneg (New e)).
  unfold min_int, max_int in *. lia.
Qed.

(** One pass of the loop body keeps a valid span valid, and leaves room for
    the rest of the batch. *)
Lemma moveSpan_valid (edits : list Edit) :
  forall s,
    valid_span s -> Forall valid_edit edits ->
    End s + growth edits <= max_int ->
    valid_span (moveSpan s edits).
Proof.
  induction edits as [|e rest IH]; intros s Hs He Hg; simpl in *; [exact Hs|].
  inversion He as [|? ? [HAt [HO HN]] Hrest]; subst.
  pose proof (growth_nonneg rest) as Hgr.
  pose proof (len_nonneg (Old e)) as HO0. pose proof (len_nonneg (New e)) as HN0.
  destruct Hs as [[Hs0 Hse] Hmax].
  rewrite (delta_exact e HO HN).
  destruct (Z.gtb_spec (At e) (End s)); [repeat split; assumption|].
  destruct (Z.eqb_spec (len (New e) - len (Old e)) 0).
  { apply IH; [repeat split; assumption | assumption | lia]. }
  unfold add. rewrite (wrap_in_range (End s + _)) by (unfold min_int, max_int in *; lia).
  cbn [End Start setEnd setStart].
  destruct (Z.ltb_spec (End s + (len (New e) - len (Old e))) (At e));
    cbn [End Start setEnd setStart].
  - destruct (Z.gtb_spec (At e) (Start s)).
    + apply IH; [unfold valid_span; cbn; lia | assumption | cbn; lia].
    + rewrite (wrap_in_range (Start s + _)) by (unfold min_int, max_int in *; lia).
      destruct (Z.ltb_spec (Start s + (len (New e) - len (Old e))) (At e));
        cbn [End Start setEnd setStart].
      * apply IH; [unfold valid_span; cbn; lia | assumption | cbn; lia].
      * apply IH; [unfold valid_span; cbn; lia | assumption | cbn; lia].
  - destruct (Z.gtb_spec (At e) (Start s)).
    + apply IH; [unfold valid_span; cbn; lia | assumption | cbn; lia].
    + rewrite (wrap_in_range (Start s + _)) by (unfold min_int, max_int in *; lia).
      destruct (Z.ltb_spec (Start s + (len (New e) - len (Old e))) (At e));
        cbn [End Start setEnd setStart].
      * apply IH; [unfold valid_span; cbn; lia | assumption | cbn; lia].
      * apply IH; [unfold valid_span; cbn; lia | assumption | cbn; lia].
Qed.

(** A single edit never leaves the end of a span it reaches below its own
    position, whatever the sizes involved. *)
Lemma moveSpan_end_clamped (s : Span) (e : Edit) :
  At e <= End s -> At e <= End (moveSpan s [e]).
Proof.
  intros H. simpl.
  destruct (Z.gtb_spec (At e) (End s)); [lia|].
  destruct (Z.eqb_spec (delta e) 0); [exact H|].
  cbn [End Start setEnd setStart].
  destruct (Z.ltb_spec (add (End s) (delta e)) (At e));
    cbn [End Start setEnd setStart];
    destruct (Z.gtb_spec (At e) (Start s)); cbn [End Start setEnd setStart];
    try lia;
    match goal with
    | |- context [?a <? ?b] => destruct (Z.ltb_spec a b)
    end; cbn [End Start setEnd setStart]; lia.
Qed.

Lemma moveLayer_valid (l : SyntaxLayer) (edits : list Edit) :
  Forall valid_span (Spans l) -> Forall valid_edit edits ->
  Forall (fun s => End s + growth edits <= max_int) (Spans l) ->
  Forall valid_span (Spans (moveLayer l edits)).
Proof.
  intros Hv He Hg. unfold moveLayer; cbn [Spans].
  rewrite List.Forall_forall in Hv, Hg. apply List.Forall_forall.
  intros s' Hin. apply List.in_map_iff in Hin as [s [<- Hin]].
  apply moveSpan_valid; [apply Hv | exact He | apply Hg]; exact Hin.
Qed.

(** C1 (code defect). The claim has every edit applied in the caller's
    order, an edit beyond the span's end being skipped and the rest of the
    batch still applied.  [moveSpan] instead leaves the loop at the first
    edit whose position is beyond the span's current end: the span is
    returned as it stands and no later edit of the batch reaches it. *)
Theorem C1_moveSpan_returns_at_first_edit_beyond_end
    (s : Span) (e : Edit) (rest : list Edit) :
  End s < At e -> moveSpan s (e :: rest) = s.
Proof.
  intros H. simpl. destruct (Z.gtb_spec (At e) (End s)); [reflexivity | lia].
Qed.

Lemma C1_early_return_witness :
  End c1_span < At c1_after
  /\ moveSpan c1_span [c1_after; c1_before] = mkSpan 10 20
  /\ moveSpan c1_span [c1_before] = mkSpan 13 23
  /\ moveSpan c1_span [c1_before; c1_after] = mkSpan 13 23.
Proof.
  split; [vm_compute; reflexivity|].
  split; [apply (C1_moveSpan_returns_at_first_edit_beyond_end
                   c1_span c1_after [c1_before]); vm_compute; reflexivity|].
  split; vm_compute; reflexivity.
Defined.

(** C2. Repositioning is a total function of the layers and the batch, and
    it preserves span validity: when every span satisfies
    [0 <= start <= end], every edit position is non-negative and the
    offsets stay within [int] (no end plus the batch's growth passes
    [max_int]), every span of the result satisfies [0 <= start <= end]; no
    layer and no span is lost; and the end of a span never falls below the
    position of an edit that reaches it. *)
Theorem C2_Applied_preserves_span_validity
    (layers : list SyntaxLayer) (edits : list Edit) :
  Forall (fun l => Forall valid_span (Spans l)) layers ->
  Forall valid_edit edits ->
  Forall (fun l => Forall (fun s => End s + growth edits <= max_int) (Spans l))
         layers ->
  Forall (fun l => Forall valid_span (Spans l)) (Applied layers edits)
  /\ List.map (fun l => length (Spans l)) (Applied layers edits)
     = List.map (fun l => length (Spans l)) layers
  /\ (forall s e, At e <= End s -> At e <= End (moveSpan s [e])).
Proof.
  intros Hv He Hg. split; [|split].
  - unfold Applied. rewrite List.Forall_forall in Hv, Hg.
    apply List.Forall_forall. intros l' Hin.
    apply List.in_map_iff in Hin as [l [<- Hin]].
    apply moveLayer_valid; [apply Hv | exact He | apply Hg]; exact Hin.
  - unfold Applied. rewrite List.map_map. apply List.map_ext.
    intros l. unfold moveLayer; cbn [Spans]. apply List.length_map.
  - exact moveSpan_end_clamped.
Qed.

Lemma C2_validity_witness :
  Forall (fun l => Forall valid_span (Spans l)) (Applied c2_layers c2_edits)
  /\ Applied c2_layers c2_edits
     = [ mkLayer 0 [mkSpan 0 2; mkSpan 2 3]; mkLayer 1 [mkSpan 8 16] ].
Proof.
  split; [|vm_compute; reflexivity].
  apply (C2_Applied_preserves_span_validity c2_layers c2_edits).
  - repeat constructor; vm_compute; intuition discriminate.
  - repeat constructor; vm_compute; intuition discriminate.
  - repeat constructor; vm_compute; intuition discriminate.
Defined.

(** What [moveSpan] makes of a span when text is inserted before it. *)
Lemma moveSpan_insertion_before_start (s : Span) (P : Z) (ins : list rune) :
  0 <= Start s <= End s -> P < Start s -> End s + len ins <= max_int ->
  moveSpan s [mkEdit P [] ins]
  = mkSpan (Start s + len ins) (End s + len ins).
Proof.
  intros [Hs0 Hse] HP Hfit.
  pose proof (len_nonneg ins) as Hl.
  assert (Hd : delta (mkEdit P [] ins) = len ins).
  { unfold delta, sub; cbn [New Old].
    change (len (@nil rune)) with 0. rewrite Z.sub_0_r.
    apply wrap_in_range. unfold min_int, max_int in *. lia. }
  simpl. rewrite Hd. cbn [At].
  destruct (Z.gtb_spec P (End s)); [lia|].
  destruct (Z.eqb_spec (len ins) 0) as [Hz|Hnz].
  { rewrite Hz, !Z.add_0_r. destruct s; reflexivity. }
  unfold add.
  rewrite (wrap_in_range (End s + len ins))
    by (unfold min_int, max_int in *; lia).
  cbn [End Start setEnd setStart].
  destruct (Z.ltb_spec (End s + len ins) P); [lia|].
  cbn [End Start setEnd setStart].
  destruct (Z.gtb_spec P (Start s)); [lia|].
  rewrite (wrap_in_range (Start s + len ins))
    by (unfold min_int, max_int in *; lia).
  destruct (Z.ltb_spec (Start s + len ins) P); [lia|].
  reflexivity.
Qed.

(** C3. [Applied] with a single insertion of [L] runes at a position [P]:
    every span of every layer whose start is strictly after [P] is, in the
    layers that [Applied] sets, in the same layer and at the same place in
    it, with its start and its end both greater by exactly [L]; its length
    is unchanged, whatever the other spans are.  (The span has
    [0 <= start <= end], and the moved end is still an [int].) *)
Theorem C3_insertion_before_start_shifts_span
    (layers : list SyntaxLayer) (i j : nat) (l : SyntaxLayer) (s : Span)
    (P : Z) (ins : list rune) :
  nth_error layers i = Some l -> nth_error (Spans l) j = Some s ->
  0 <= Start s <= End s -> P < Start s -> End s + len ins <= max_int ->
  exists (l' : SyntaxLayer) (s' : Span),
    nth_error (Applied layers [mkEdit P [] ins]) i = Some l'
    /\ Construct l' = Construct l
    /\ length (Spans l') = length (Spans l)
    /\ nth_error (Spans l') j = Some s'
    /\ Start s' = Start s + len ins
    /\ End s' = End s + len ins
    /\ End s' - Start s' = End s - Start s.
Proof.
  intros Hl Hs Hvalid HP Hfit.
  exists (moveLayer l [mkEdit P [] ins]),
         (mkSpan (Start s + len ins) (End s + len ins)).
  split; [|split; [|split; [|split; [|split; [|split]]]]].
  - unfold Applied. rewrite List.nth_error_map, Hl. reflexivity.
  - reflexivity.
  - unfold moveLayer; cbn [Spans]. apply List.length_map.
  - unfold moveLayer; cbn [Spans]. rewrite List.nth_error_map, Hs.
    cbn [option_map]. f_equal.
    apply moveSpan_insertion_before_start; assumption.
  - reflexivity.
  - reflexivity.
  - cbn [Start End]. lia.
Qed.

Lemma C3_shift_witness :
  Applied c3_layers [c3_insert]
  = [ mkLayer 0 [mkSpan 0 7; mkSpan 13 23]; mkLayer 1 [mkSpan 8 12] ]
  /\ exists (l' : SyntaxLayer) (s' : Span),
       nth_error (Applied c3_layers [c3_insert]) 0 = Some l'
       /\ Construct l' = 0%nat
       /\ length (Spans l') = 2%nat
       /\ nth_error (Spans l') 1 = Some s'
       /\ Start s' = 10 + 3
       /\ End s' = 20 + 3
       /\ End s' - Start s' = 20 - 10.
Proof.
  split; [vm_compute; reflexivity|].
  apply (C3_insertion_before_start_shifts_span
           c3_layers 0 1 (mkLayer 0 [mkSpan 0 4; mkSpan 10 20]) (mkSpan 10 20)
           4 [97; 98; 99]);
    vm_compute; intuition discriminate.
Defined.
End Repositioning.

(** ** Further properties of repositioning *)
Section RepositioningFurther.
Import GoInt Gosyntax.
Local Open Scope Z_scope.

Lemma span_eta (s : Span) : {| Start := Start s; End := End s |} = s.
Proof. destruct s; reflexivity. Qed.

Lemma map_fixed {A : Type} (f : A -> A) (l : list A) :
  (forall x, In x l -> f x = x) -> List.map f l = l.
Proof.
  induction l as [|x l IH]; intros H; [reflexivity|].
  cbn [List.map]. rewrite (H x) by (left; reflexivity).
  rewrite IH; [reflexivity|]. intros y Hy. apply H. right. exact Hy.
Qed.

Lemma Applied_fixed (layers : list SyntaxLayer) (edits : list Edit) :
  (forall l s, In l layers -> In s (Spans l) -> moveSpan s edits = s) ->
  Applied layers edits = layers.
Proof.
  intros H. unfold Applied. apply map_fixed. intros l Hl.
  unfold moveLayer. rewrite (map_fixed _ (Spans l)) by (intros s Hs; exact (H l s Hl Hs)).
  destruct l; reflexivity.
Qed.

Lemma delta_same_length (e : Edit) :
  length (New e) = length (Old e) -> delta e = 0.
Proof.
  intros H. unfold delta, sub, len. rewrite H, Z.sub_diag. reflexivity.
Qed.

(** X1. A batch that only replaces text by text of the same length, the
    empty batch among them, leaves every span of every layer where it was. *)
Theorem X1_same_length_replacements_move_nothing
    (layers : list SyntaxLayer) (edits : list Edit) :
  Forall (fun e => length (New e) = length (Old e)) edits ->
  Applied layers edits = layers.
Proof.
  intros Hsame. apply Applied_fixed. intros _ s _ _. revert s.
  induction Hsame as [|e rest He _ IH]; intros s; [reflexivity|].
  cbn [moveSpan]. rewrite (delta_same_length e He). cbn.
  destruct (At e >? End s); [reflexivity | apply IH].
Qed.

Lemma X1_same_length_witness :
  Applied x_layers [x_replace; x_replace] = x_layers
  /\ Applied x_layers [] = x_layers.
Proof.
  split.
  - apply (X1_same_length_replacements_move_nothing x_layers [x_replace; x_replace]).
    repeat constructor.
  - apply (X1_same_length_replacements_move_nothing x_layers []). constructor.
Defined.

(** X2. A batch whose edits all lie beyond the end of every span leaves
    every layer unchanged. *)
Theorem X2_edits_beyond_every_span_move_nothing
    (layers : list SyntaxLayer) (edits : list Edit) :
  (forall l s e, In l layers -> In s (Spans l) -> In e edits -> End s < At e) ->
  Applied layers edits = layers.
Proof.
  intros H. apply Applied_fixed. intros l s Hl Hs.
  destruct edits as [|e rest]; [reflexivity|]. cbn [moveSpan].
  specialize (H l s e Hl Hs (or_introl eq_refl)).
  destruct (Z.gtb_spec (At e) (End s)); [reflexivity | lia].
Qed.

Lemma X2_beyond_witness :
  Applied x_layers [mkEdit 32 [] [1; 2]; mkEdit 40 [5] []] = x_layers.
Proof.
  apply (X2_edits_beyond_every_span_move_nothing
           x_layers [mkEdit 32 [] [1; 2]; mkEdit 40 [5] []]).
  intros l s e Hl Hs He. cbn in Hl, He.
  destruct Hl as [<-|[<-|[]]]; cbn in Hs;
    repeat (destruct Hs as [<-|Hs]); try contradiction;
    destruct He as [<-|[<-|[]]]; cbn; lia.
Defined.

(** The first edit of a batch, when it reaches the span and the sizes stay
    within [int], acts as [moved]. *)
Lemma moveSpan_cons (s : Span) (e : Edit) (rest : list Edit) :
  valid_span s -> valid_edit e ->
  End s + Z.max 0 (len (New e) - len (Old e)) <= max_int ->
  At e <= End s ->
  moveSpan s (e :: rest) = moveSpan (moved s e) rest.
Proof.
  intros [[Hs0 Hse] Hmax] [HAt [HO HN]] Hfit Hreach.
  pose proof (len_nonneg (Old e)) as HO0. pose proof (len_nonneg (New e)) as HN0.
  cbn [moveSpan]. rewrite (delta_exact e HO HN). unfold moved. cbn zeta.
  destruct (Z.gtb_spec (At e) (End s)); [lia|].
  destruct (Z.eqb_spec (len (New e) - len (Old e)) 0) as [Hz|Hnz].
  { rewrite Hz, !Z.add_0_r.
    destruct (Z.gtb_spec (At e) (Start s)).
    - rewrite Z.max_l by lia. rewrite span_eta. reflexivity.
    - rewrite !Z.max_l by lia. rewrite span_eta. reflexivity. }
  unfold add.
  rewrite (wrap_in_range (End s + _)) by (unfold min_int, max_int in *; lia).
  cbn [End Start setEnd setStart].
  destruct (Z.ltb_spec (End s + (len (New e) - len (Old e))) (At e));
    cbn [End Start setEnd setStart];
    destruct (Z.gtb_spec (At e) (Start s)); cbn [End Start setEnd setStart];
    try (f_equal; unfold setEnd; cbn; f_equal; lia);
    rewrite (wrap_in_range (Start s + _)) by (unfold min_int, max_int in *; lia);
    destruct (Z.ltb_spec (Start s + (len (New e) - len (Old e))) (At e));
    cbn [End Start setEnd setStart];
    f_equal; unfold setEnd, setStart; cbn; f_equal; lia.
Qed.

(** X3. A single deletion that ends at or before the start of a span moves
    the span left as it is, by the number of runes deleted. *)
Theorem X3_deletion_before_start_shifts_span_left
    (s : Span) (P : Z) (del : list rune) :
  0 <= P -> P + len del <= Start s -> Start s <= End s -> End s <= max_int ->
  moveSpan s [mkEdit P del []]
  = mkSpan (Start s - len del) (End s - len del).
Proof.
  intros HP Hbefore Hse Hmax. pose proof (len_nonneg del) as Hl.
  assert (Hnil : len (@nil rune) = 0) by reflexivity.
  assert (Hs : valid_span s) by (unfold valid_span; lia).
  assert (He : valid_edit (mkEdit P del []))
    by (unfold valid_edit; cbn [At Old New]; unfold max_int in *; lia).
  rewrite moveSpan_cons by (try assumption; cbn [At Old New]; lia).
  cbn [moveSpan]. unfold moved. cbn [At Old New Start End]. rewrite Hnil.
  destruct (Z.gtb_spec P (Start s)); [lia|].
  f_equal; lia.
Qed.

Lemma X3_deletion_witness :
  moveSpan (mkSpan 10 20) [x_delete] = mkSpan 6 16.
Proof.
  apply (X3_deletion_before_start_shifts_span_left (mkSpan 10 20) 2 [1; 2; 3; 4]);
    unfold max_int, len; cbn [Start End length]; lia.
Defined.

(** X4. A single edit that shortens the text from a position [P] within or
    before a span by at least what lies of the span's end after [P] cuts
    the span off at [P]: the end becomes [P], and so does the start when
    the edit began at or before it.  A deletion that swallows a span leaves
    the empty span at the place of the deletion. *)
Theorem X4_deletion_reaching_the_end_cuts_span (s : Span) (e : Edit) :
  valid_span s -> valid_edit e ->
  At e <= End s ->
  End s + (len (New e) - len (Old e)) <= At e ->
  moveSpan s [e] = mkSpan (Z.min (Start s) (At e)) (At e).
Proof.
  intros Hs He Hreach Hcut.
  assert (Hv := Hs). destruct Hv as [[Hs0 Hse] Hmax].
  rewrite moveSpan_cons by (try assumption; lia).
  cbn [moveSpan]. unfold moved. cbn zeta.
  destruct (Z.gtb_spec (At e) (Start s)); f_equal; lia.
Qed.

Lemma X4_cut_witness :
  moveSpan (mkSpan 3 8) [mkEdit 2 [1; 2; 3; 4; 5; 6; 7] []] = mkSpan 2 2
  /\ moveSpan (mkSpan 3 8) [mkEdit 5 [1; 2; 3; 4] [9]] = mkSpan 3 5.
Proof.
  split.
  - apply (X4_deletion_reaching_the_end_cuts_span
             (mkSpan 3 8) (mkEdit 2 [1; 2; 3; 4; 5; 6; 7] []));
      unfold valid_span, valid_edit, max_int, len;
      cbn [Start End At Old New length]; lia.
  - apply (X4_deletion_reaching_the_end_cuts_span
             (mkSpan 3 8) (mkEdit 5 [1; 2; 3; 4] [9]));
      unfold valid_span, valid_edit, max_int, len;
      cbn [Start End At Old New length]; lia.
Defined.

(** X5. One edit keeps two spans in order: when the first span ends at or
    before the start of the second, it still does after both were moved by
    the same single edit. *)
Theorem X5_single_edit_keeps_spans_in_order (s1 s2 : Span) (e : Edit) :
  valid_span s1 -> valid_span s2 -> valid_edit e ->
  End s1 <= Start s2 ->
  End s2 + Z.max 0 (len (New e) - len (Old e)) <= max_int ->
  End (moveSpan s1 [e]) <= Start (moveSpan s2 [e]).
Proof.
  intros H1 H2 He Hord Hfit.
  assert (Hv1 := H1). destruct Hv1 as [[Ha Hab] Hb].
  assert (Hv2 := H2). destruct Hv2 as [[Hc Hcd] Hd].
  destruct (Z.le_gt_cases (At e) (End s1)) as [Hr1|Hr1].
  - rewrite (moveSpan_cons s1) by (try assumption; lia).
    rewrite (moveSpan_cons s2) by (try assumption; lia).
    cbn [moveSpan]. unfold moved. cbn zeta. cbn [Start End].
    destruct (Z.gtb_spec (At e) (Start s2)); lia.
  - assert (Hs1 : moveSpan s1 [e] = s1).
    { cbn [moveSpan]. destruct (Z.gtb_spec (At e) (End s1)); [reflexivity | lia]. }
    rewrite Hs1.
    destruct (Z.le_gt_cases (At e) (End s2)) as [Hr2|Hr2].
    + rewrite (moveSpan_cons s2) by (try assumption; lia).
      cbn [moveSpan]. unfold moved. cbn zeta. cbn [Start End].
      destruct (Z.gtb_spec (At e) (Start s2)); lia.
    + assert (Hs2 : moveSpan s2 [e] = s2).
      { cbn [moveSpan]. destruct (Z.gtb_spec (At e) (End s2)); [reflexivity | lia]. }
      rewrite Hs2. exact Hord.
Qed.

Lemma X5_order_witness :
  End (moveSpan (mkSpan 3 8) [x_delete]) <= Start (moveSpan (mkSpan 10 20) [x_delete]).
Proof.
  apply (X5_single_edit_keeps_spans_in_order (mkSpan 3 8) (mkSpan 10 20) x_delete);
    unfold valid_span, valid_edit, x_delete, max_int, len;
    cbn [Start End At Old New length]; lia.
Defined.

(** X6. A batch never moves the end or the start of a span to the right by
    more than the batch inserts in all, and never moves the start to the
    right of the end. *)
Theorem X6_batch_moves_right_by_at_most_its_growth (edits : list Edit) :
  forall s,
    valid_span s -> Forall valid_edit edits ->
    End s + growth edits <= max_int ->
    End (moveSpan s edits) <= End s + growth edits
    /\ Start (moveSpan s edits) <= Start s + growth edits.
Proof.
  induction edits as [|e rest IH]; intros s Hs He Hfit; [cbn; lia|].
  inversion He as [|? ? He1 Hrest]; subst.
  pose proof (growth_nonneg rest) as Hg.
  cbn [growth] in Hfit |- *.
  destruct (Z.le_gt_cases (At e) (End s)) as [Hr|Hr].
  - assert (Hv := Hs). destruct Hv as [[Hs0 Hse] Hmax].
    assert (Hv := He1). destruct Hv as [HAt _].
    rewrite moveSpan_cons by (try assumption; lia).
    assert (Hm : valid_span (moved s e)
                 /\ End (moved s e) <= End s + Z.max 0 (len (New e) - len (Old e))
                 /\ Start (moved s e) <= Start s + Z.max 0 (len (New e) - len (Old e))).
    { unfold moved, valid_span. cbn zeta. cbn [Start End].
      destruct (Z.gtb_spec (At e) (Start s)); lia. }
    destruct Hm as (Hvm & Hme & Hms).
    destruct (IH (moved s e) Hvm Hrest) as [IHe IHs]; lia.
  - cbn [moveSpan]. destruct (Z.gtb_spec (At e) (End s)); lia.
Qed.

Lemma X6_growth_witness :
  End (moveSpan (mkSpan 10 20) [mkEdit 4 [] [1; 2; 3]; x_delete])
  <= 20 + growth [mkEdit 4 [] [1; 2; 3]; x_delete]
  /\ Start (moveSpan (mkSpan 10 20) [mkEdit 4 [] [1; 2; 3]; x_delete])
     <= 10 + growth [mkEdit 4 [] [1; 2; 3]; x_delete].
Proof.
  apply (X6_batch_moves_right_by_at_most_its_growth
           [mkEdit 4 [] [1; 2; 3]; x_delete] (mkSpan 10 20)).
  - vm_compute; intuition discriminate.
  - repeat constructor; vm_compute; intuition discriminate.
  - vm_compute; intuition discriminate.
Defined.
End RepositioningFurther.

Section Outline.
Import GoInt Navigator.
Local Open Scope string_scope.

Lemma parseInOrder_app (pkgName : string) (l1 l2 : list (string * Decl)) :
  forall st,
    parseInOrder pkgName st (l1 ++ l2)
    = match parseInOrder pkgName st l1 with
      | Some st => parseInOrder pkgName st l2
      | None => None
      end.
Proof.
  induction l1 as [|[f d] l1 IH]; intros st; cbn [parseInOrder app]; [reflexivity|].
  destruct (parseDecl pkgName f st d); [apply IH | reflexivity].
Qed.

Lemma parseDecls_in_order (pkgName filename : string) (decls : list Decl) :
  forall st,
    parseDecls pkgName filename st decls
    = parseInOrder pkgName st (List.map (fun d => (filename, d)) decls).
Proof.
  induction decls as [|d decls IH]; intros st; cbn [parseDecls parseInOrder List.map];
    [reflexivity|].
  destruct (parseDecl pkgName filename st d); [apply IH | reflexivity].
Qed.

Lemma parseFiles_in_order (pkgName : string) (files : list (string * list Decl)) :
  forall st,
    parseFiles pkgName st files = parseInOrder pkgName st (declsInOrder files).
Proof.
  induction files as [|[f decls] files IH]; intros st; [reflexivity|].
  cbn [parseFiles declsInOrder flat_map fst snd].
  rewrite parseInOrder_app, <- parseDecls_in_order.
  destruct (parseDecls pkgName f st decls); [apply IH | reflexivity].
Qed.

Lemma lookupOrNew_new (st : Locals) (key : string) :
  typeMap st !! key = None ->
  lookupOrNew st key
  = (length (heap st),
     set_typeMap (set_heap st (heap st ++ [zeroName]))
                 (<[key := length (heap st)]> (typeMap st))).
Proof. intros H. unfold lookupOrNew. rewrite H. reflexivity. Qed.

Lemma lookupOrNew_old (st : Locals) (key : string) (typ : nat) :
  typeMap st !! key = Some typ -> lookupOrNew st key = (typ, st).
Proof. intros H. unfold lookupOrNew. rewrite H. reflexivity. Qed.

Lemma type_then_method (pkgName T M fT fM : string) (pT pM : Z) (ptr : bool) :
  exists st,
    parseInOrder pkgName initLocals
      [(fT, typeDecl T pT); (fM, methodDecl ptr T M pM)] = Some st
    /\ List.map (fun p => nameNode (deref (heap st) p)) (types st)
       = [typeWithMethod pkgName T M fT fM pT pM].
Proof.
  unfold typeDecl, methodDecl.
  cbn [parseInOrder parseDecl Token_String String.eqb Ascii.eqb Bool.eqb].
  rewrite lookupOrNew_new by apply lookup_empty.
  cbn [initLocals heap typeMap types length app set_typeMap set_heap set_types
       consts vars funcs Type_].
  assert (Hrecv : (match (if ptr then StarExpr (Ident T) else Ident T) with
                   | StarExpr x => x | t => t end) = Ident T)
    by (destruct ptr; reflexivity).
  rewrite Hrecv.
  rewrite (lookupOrNew_old _ T 0%nat) by apply lookup_insert_eq.
  eexists; split; [reflexivity|]. reflexivity.
Qed.

Lemma method_then_type (pkgName T M fT fM : string) (pT pM : Z) (ptr : bool) :
  exists st,
    parseInOrder pkgName initLocals
      [(fM, methodDecl ptr T M pM); (fT, typeDecl T pT)] = Some st
    /\ List.map (fun p => nameNode (deref (heap st) p)) (types st)
       = [typeWithMethod pkgName T M fT fM pT pM].
Proof.
  unfold typeDecl, methodDecl.
  cbn [parseInOrder parseDecl Token_String String.eqb Ascii.eqb Bool.eqb Type_].
  assert (Hrecv : (match (if ptr then StarExpr (Ident T) else Ident T) with
                   | StarExpr x => x | t => t end) = Ident T)
    by (destruct ptr; reflexivity).
  rewrite Hrecv.
  rewrite lookupOrNew_new by apply lookup_empty.
  cbn [initLocals heap typeMap types length app set_typeMap set_heap set_types
       consts vars funcs].
  rewrite (lookupOrNew_old _ T 0%nat) by apply lookup_insert_eq.
  eexists; split; [reflexivity|]. reflexivity.
Qed.

(** A method met before its type: a [Name] is allocated and entered in
    [typeMap] under the type's name, the method is its only child, and
    nothing is added to [types] yet. *)
Lemma method_leaves_placeholder (pkgName T M fM : string) (pM : Z) (ptr : bool) :
  exists st,
    parseDecl pkgName fM initLocals (methodDecl ptr T M pM) = Some st
    /\ typeMap st !! T = Some 0%nat
    /\ types st = []
    /\ heap st
       = [mkName "" "" zeroColor
                 [NameNode M (pkgName ++ ".types." ++ T ++ "." ++ M) nameColor [] fM pM]
                 "" 0].
Proof.
  unfold methodDecl. cbn [parseDecl Type_].
  assert (Hrecv : (match (if ptr then StarExpr (Ident T) else Ident T) with
                   | StarExpr x => x | t => t end) = Ident T)
    by (destruct ptr; reflexivity).
  rewrite Hrecv. rewrite lookupOrNew_new by apply lookup_empty.
  eexists; split; [reflexivity|].
  split; [apply lookup_insert_eq|]. split; reflexivity.
Qed.

(** C4. Outline construction does not depend on the order in which the
    type declaration and the method are met: for every package whose
    declarations, over all its files and in whatever order the loops visit
    them, are [type T ...] and a method [M] with receiver [T] or [*T], the
    builder returns a package node whose types group has exactly one child,
    named [T], with exactly one child, [M].  A method met first leaves a
    placeholder, found again by the type's name in [typeMap] and not yet
    among [types], that the type declaration fills in. *)
Theorem C4_outline_insensitive_to_declaration_order
    (pkgName T M fT fM : string) (pT pM : Z) (ptr : bool)
    (files : list (string * list Decl)) :
  Permutation (declsInOrder files)
              [(fT, typeDecl T pT); (fM, methodDecl ptr T M pM)] ->
  (exists pkgNode,
      parsePkg (mkPackage pkgName files) = Some pkgNode
      /\ typesOf pkgNode = [typeWithMethod pkgName T M fT fM pT pM])
  /\ (exists st,
         parseDecl pkgName fM initLocals (methodDecl ptr T M pM) = Some st
         /\ typeMap st !! T = Some 0%nat
         /\ types st = []
         /\ List.map Navigator.children (heap st)
            = [[NameNode M (pkgName ++ ".types." ++ T ++ "." ++ M) nameColor []
                         fM pM]]).
Proof.
  intros Hperm. split.
  2:{ destruct (method_leaves_placeholder pkgName T M fM pM ptr)
        as (st & Hst & Hmap & Htypes & Hheap).
      exists st. rewrite Hheap. repeat split; assumption. }
  apply Permutation_sym, Permutation_length_2_inv in Hperm.
  unfold parsePkg; cbn [pkg_name pkg_files]. rewrite parseFiles_in_order.
  destruct Hperm as [-> | ->].
  - destruct (type_then_method pkgName T M fT fM pT pM ptr) as [st [-> Hty]].
    eexists; split; [reflexivity|]. exact Hty.
  - destruct (method_then_type pkgName T M fT fM pT pM ptr) as [st [-> Hty]].
    eexists; split; [reflexivity|]. exact Hty.
Qed.

Lemma C4_order_witness :
  (exists pkgNode,
      parsePkg (mkPackage "foo" [("bar.go", [barDecl]); ("foo.go", [fooDecl])])
      = Some pkgNode /\ typesOf pkgNode = [fooBar])
  /\ (exists pkgNode,
         parsePkg (mkPackage "foo" [("foo.go", [fooDecl]); ("bar.go", [barDecl])])
         = Some pkgNode /\ typesOf pkgNode = [fooBar]).
Proof.
  split.
  - apply (C4_outline_insensitive_to_declaration_order
             "foo" "Foo" "Bar" "foo.go" "bar.go" 18 13 true).
    cbn. apply perm_swap.
  - apply (C4_outline_insensitive_to_declaration_order
             "foo" "Foo" "Bar" "foo.go" "bar.go" 18 13 true).
    cbn. apply Permutation_refl.
Defined.

Lemma parseDecl_firstSpecOnly (pkgName filename : string) (st : Locals) (decl : Decl) :
  parseDecl pkgName filename st (firstSpecOnly decl)
  = parseDecl pkgName filename st decl.
Proof.
  destruct decl as [|tok specs|]; try reflexivity.
  destruct tok; try reflexivity.
  destruct specs as [|spec rest]; [reflexivity|].
  destruct spec; reflexivity.
Qed.

Lemma parseDecls_firstSpecOnly (pkgName filename : string) (decls : list Decl) :
  forall st,
    parseDecls pkgName filename st (List.map firstSpecOnly decls)
    = parseDecls pkgName filename st decls.
Proof.
  induction decls as [|d decls IH]; intros st; [reflexivity|].
  cbn [List.map parseDecls]. rewrite parseDecl_firstSpecOnly.
  destruct (parseDecl pkgName filename st d); [apply IH | reflexivity].
Qed.

Lemma parseFiles_firstSpecOnly (pkgName : string) (files : list (string * list Decl)) :
  forall st,
    parseFiles pkgName st
      (List.map (fun f => (fst f, List.map firstSpecOnly (snd f))) files)
    = parseFiles pkgName st files.
Proof.
  induction files as [|[f decls] files IH]; intros st; [reflexivity|].
  cbn [List.map parseFiles fst snd]. rewrite parseDecls_firstSpecOnly.
  destruct (parseDecls pkgName f st decls); [apply IH | reflexivity].
Qed.

(** C9. Of a grouped [type] declaration the builder reads the first spec
    only: the declaration has the same effect on [parsePkg]'s variables as
    the declaration cut down to its first spec, so the outline of a package
    is the outline of the package with every [type] declaration cut down
    that way; in [type ( A ...; B ... )] alone, [A] is the only child of
    the types group and [B] has no node. *)
Theorem C9_grouped_type_declaration_reads_first_spec_only :
  (forall pkgName file st spec rest,
      parseDecl pkgName file st (GenDecl TYPE (spec :: rest))
      = parseDecl pkgName file st (GenDecl TYPE [spec]))
  /\ (forall pkgName files,
         parsePkg (mkPackage pkgName files)
         = parsePkg (mkPackage pkgName
                       (List.map (fun f => (fst f, List.map firstSpecOnly (snd f)))
                                 files)))
  /\ (forall pkgName file A B pA pB more,
         exists pkgNode,
           parsePkg (mkPackage pkgName
                       [(file,
                         [GenDecl TYPE (TypeSpec (mkIdent A pA)
                                          :: TypeSpec (mkIdent B pB) :: more)])])
           = Some pkgNode
           /\ typesOf pkgNode
              = [NameNode A (pkgName ++ ".types." ++ A) nameColor [] file pA]).
Proof.
  split; [|split].
  - intros. symmetry.
    apply (parseDecl_firstSpecOnly pkgName file st (GenDecl TYPE (spec :: rest))).
  - intros. unfold parsePkg; cbn [pkg_name pkg_files].
    rewrite parseFiles_firstSpecOnly. reflexivity.
  - intros. unfold parsePkg; cbn [pkg_name pkg_files parseFiles parseDecls].
    cbn [parseDecl Token_String String.eqb Ascii.eqb Bool.eqb id_name id_pos].
    rewrite lookupOrNew_new by apply lookup_empty.
    eexists; split; reflexivity.
Qed.



Lemma Reload_children (pkgs : list Package) :
  forall t t',
    Reload t pkgs = Some t' ->
    exists nodes,
      Forall2 (fun pkg node => parsePkg pkg = Some node) pkgs nodes
      /\ node_children t' = (node_children t ++ nodes)%list.
Proof.
  induction pkgs as [|pkg pkgs IH]; intros t t' H; cbn [Reload] in H.
  - injection H as <-. exists []. split; [constructor | symmetry; apply app_nil_r].
  - destruct (parsePkg pkg) as [node|] eqn:Hpkg; [|discriminate].
    apply IH in H as [nodes [Hall Hch]]. cbn [node_children] in Hch.
    exists (node :: nodes). split; [constructor; assumption|].
    rewrite Hch, <- app_assoc. reflexivity.
Qed.


End Outline.

(** ** Further properties of the outline *)
Section OutlineFurther.
Import GoInt Navigator.
Local Open Scope Z_scope.
Local Open Scope string_scope.

Lemma index_children_Some (l : list TreeNode) (index : Z) :
  (exists c, index_children l index = Some c) <-> 0 <= index < len l.
Proof.
  unfold index_children, len.
  destruct (Z.ltb_spec index 0) as [Hneg|Hpos].
  - split; [intros [c Hc]; discriminate Hc | lia].
  - split.
    + intros [c Hc].
      assert (Hlt : (Z.to_nat index < length l)%nat)
        by (apply List.nth_error_Some; rewrite Hc; discriminate).
      lia.
    + intros [_ Hlt].
      destruct (nth_error l (Z.to_nat index)) as [c|] eqn:Hc; [exists c; reflexivity|].
      apply List.nth_error_None in Hc. lia.
Qed.

(** X7. [Count] and [NodeAt] agree on every node, skipping or not: there is
    a child to show at an index exactly when the index is at least 0 and
    below [Count]; any other index is the out-of-range panic. *)
Theorem X7_NodeAt_defined_below_Count :
  forall (t : TreeNode) (index : Z),
    (exists c, NodeAt t index = Some c) <-> 0 <= index < Count t.
Proof.
  fix IH 1. intros t index.
  destruct t as [n p col l|n p col l f ps|n p col l].
  - exact (index_children_Some l index).
  - exact (index_children_Some l index).
  - destruct l as [|c [|c' l]].
    + exact (index_children_Some [] index).
    + exact (IH c index).
    + exact (index_children_Some (c :: c' :: l) index).
Qed.

(** The loop of [ItemIndex]: the first matching child, counted from [i]. *)
Lemma itemIndexFrom_first (item : string) (l : list TreeNode) :
  forall i,
    0 <= i ->
    (itemIndexFrom item l i = -1
     /\ Forall (fun c => itemMatches item c = false) l)
    \/ (exists (k : nat) (c : TreeNode),
           itemIndexFrom item l i = i + Z.of_nat k
           /\ nth_error l k = Some c
           /\ itemMatches item c = true
           /\ Forall (fun c' => itemMatches item c' = false) (firstn k l)).
Proof.
  induction l as [|c l IH]; intros i Hi; [left; split; [reflexivity | constructor]|].
  cbn [itemIndexFrom].
  change (String.eqb item (Item c) || String.prefix (Item c ++ ".") item)%bool
    with (itemMatches item c).
  destruct (itemMatches item c) eqn:Hc.
  - right. exists 0%nat, c. repeat split; [lia | exact Hc | constructor].
  - destruct (IH (i + 1) ltac:(lia)) as [[Hnone Hall]|(k & c' & Hidx & Hnth & Hm & Hbefore)].
    + left. split; [exact Hnone | constructor; assumption].
    + right. exists (S k), c'. repeat split; [lia | exact Hnth | exact Hm |].
      cbn [firstn]. constructor; assumption.
Qed.

Lemma index_children_nth (l : list TreeNode) (k : nat) :
  index_children l (Z.of_nat k) = nth_error l k.
Proof.
  unfold index_children. destruct (Z.ltb_spec (Z.of_nat k) 0); [lia|].
  rewrite Nat2Z.id. reflexivity.
Qed.

Lemma Forall_firstn_index (P : TreeNode -> Prop) (l : list TreeNode) (k : nat) :
  Forall P (firstn k l) ->
  forall j c, 0 <= j < Z.of_nat k -> index_children l j = Some c -> P c.
Proof.
  intros Hall j c Hj Hc. rewrite <- (Z2Nat.id j) in Hc by lia.
  rewrite index_children_nth in Hc.
  rewrite List.Forall_forall in Hall. apply Hall.
  rewrite <- (firstn_skipn k l) in Hc.
  rewrite List.nth_error_app1 in Hc
    by (rewrite List.length_firstn;
        assert ((Z.to_nat j < length l)%nat)
          by (apply List.nth_error_Some;
              rewrite <- (firstn_skipn k l); intros Hn;
              rewrite Hn in Hc; discriminate Hc);
        lia).
  eapply List.nth_error_In. exact Hc.
Qed.

Lemma itemIndexFrom_firstMatch (item : string) (l : list TreeNode) :
  firstMatch item (index_children l) (itemIndexFrom item l 0).
Proof.
  destruct (itemIndexFrom_first item l 0 ltac:(lia))
    as [[Hnone Hall]|(k & c & Hidx & Hnth & Hm & Hbefore)].
  - left. split; [exact Hnone|]. intros j c Hc.
    unfold index_children in Hc. destruct (j <? 0)%Z; [discriminate Hc|].
    rewrite List.Forall_forall in Hall. apply Hall.
    eapply List.nth_error_In. exact Hc.
  - right. rewrite Hidx, Z.add_0_l. split; [lia|]. split.
    + exists c. rewrite index_children_nth. split; assumption.
    + exact (Forall_firstn_index _ l k Hbefore).
Qed.

(** X8. [ItemIndex] finds the first child shown whose item is the item
    looked up or a dotted prefix of it: the child at the index returned
    matches and no child shown before it does; -1 is returned exactly when
    no child shown matches. *)
Theorem X8_ItemIndex_finds_first_matching_child :
  forall (t : TreeNode) (item : string),
    firstMatch item (NodeAt t) (ItemIndex t item).
Proof.
  fix IH 1. intros t item.
  destruct t as [n p col l|n p col l f ps|n p col l].
  - exact (itemIndexFrom_firstMatch item l).
  - exact (itemIndexFrom_firstMatch item l).
  - destruct l as [|c [|c' l]].
    + exact (itemIndexFrom_firstMatch item []).
    + exact (IH c item).
    + exact (itemIndexFrom_firstMatch item (c :: c' :: l)).
Qed.

Lemma parseDecl_None (pkgName file : string) (st : Locals) (decl : Decl) :
  parseDecl pkgName file st decl = None <-> panics decl = true.
Proof.
  destruct decl as [|tok specs|fname fpos recv]; cbn [parseDecl panics].
  - split; discriminate.
  - destruct tok; cbn; try (split; discriminate).
    destruct specs as [|[|names|id] rest]; try (split; reflexivity).
    destruct (lookupOrNew st (id_name id)). split; discriminate.
  - destruct recv as [[|field rest]|]; try (split; [discriminate | discriminate]);
      try (split; reflexivity).
    destruct (Type_ field) as [x|[x|y|]|]; try (split; reflexivity).
    + destruct (lookupOrNew st x). split; discriminate.
    + destruct (lookupOrNew st x). split; discriminate.
Qed.

Lemma parseInOrder_None (pkgName : string) (l : list (string * Decl)) :
  forall st,
    parseInOrder pkgName st l = None
    <-> Exists (fun fd => panics (snd fd) = true) l.
Proof.
  induction l as [|[f d] l IH]; intros st; cbn [parseInOrder].
  - split; [discriminate | intros H; inversion H].
  - destruct (parseDecl pkgName f st d) as [st'|] eqn:Hd.
    + rewrite IH. split.
      * intros H. right. exact H.
      * intros H. inversion H as [? ? Hp|? ? Hl]; subst; [|exact Hl].
        cbn [snd] in Hp. apply (parseDecl_None pkgName f st d) in Hp. congruence.
    + split; [|reflexivity]. intros _. left. cbn [snd].
      apply (parseDecl_None pkgName f st d). exact Hd.
Qed.

(** X9. [parsePkg] gives an outline for every package but those that make
    it panic, and those are the packages holding a [type] declaration
    without a type spec at its head ([type ()]), a method with an empty
    receiver list, or a method whose receiver type is neither an
    identifier nor a pointer to an identifier. *)
Theorem X9_parsePkg_panics_exactly_on (pkg : Package) :
  parsePkg pkg = None
  <-> Exists (fun fd => panics (snd fd) = true) (declsInOrder (pkg_files pkg)).
Proof.
  unfold parsePkg. rewrite parseFiles_in_order.
  rewrite <- (parseInOrder_None (pkg_name pkg) _ initLocals).
  destruct (parseInOrder (pkg_name pkg) initLocals (declsInOrder (pkg_files pkg)));
    split; congruence.
Qed.

Lemma string_app_assoc (s1 s2 s3 : string) :
  (s1 ++ s2) ++ s3 = s1 ++ s2 ++ s3.
Proof.
  induction s1 as [|a s1 IH]; [reflexivity|].
  change (String a ((s1 ++ s2) ++ s3) = String a (s1 ++ s2 ++ s3)).
  f_equal. exact IH.
Qed.

Lemma valueNamesFrom_names (file parent : string) (specs : list Spec) :
  List.map node_name (valueNamesFrom file parent specs) = declaredNames specs.
Proof.
  unfold valueNamesFrom, declaredNames.
  induction specs as [|spec specs IH]; [reflexivity|].
  cbn [flat_map]. rewrite List.map_app, IH. f_equal.
  destruct spec as [|names|id]; try reflexivity.
  rewrite List.map_map. reflexivity.
Qed.

Lemma valueNamesFrom_leaves (file parent : string) (specs : list Spec) :
  Forall (isLeafUnder parent) (valueNamesFrom file parent specs).
Proof.
  unfold valueNamesFrom.
  induction specs as [|spec specs IH]; [constructor|].
  cbn [flat_map]. apply List.Forall_app. split; [|exact IH].
  destruct spec as [|names|id]; try constructor.
  apply List.Forall_forall. intros t Ht.
  apply List.in_map_iff in Ht as [id [<- _]]. repeat split.
Qed.

Lemma lookupOrNew_groups (st : Locals) (key : string) :
  consts (snd (lookupOrNew st key)) = consts st
  /\ vars (snd (lookupOrNew st key)) = vars st
  /\ funcs (snd (lookupOrNew st key)) = funcs st
  /\ types (snd (lookupOrNew st key)) = types st.
Proof. unfold lookupOrNew. destruct (typeMap st !! key); repeat split. Qed.

(** What one declaration adds to the three groups of leaves. *)
Lemma parseDecl_groups (pkgName file : string) (st st' : Locals) (decl : Decl) :
  parseDecl pkgName file st decl = Some st' ->
  exists cs vs fs,
    consts st' = (consts st ++ cs)%list
    /\ vars st' = (vars st ++ vs)%list
    /\ funcs st' = (funcs st ++ fs)%list
    /\ List.map node_name cs = constNamesOf decl
    /\ List.map node_name vs = varNamesOf decl
    /\ List.map node_name fs = funcNamesOf decl
    /\ Forall (isLeafUnder (pkgName ++ ".constants")) cs
    /\ Forall (isLeafUnder (pkgName ++ ".global vars")) vs
    /\ Forall (isLeafUnder (pkgName ++ ".funcs")) fs.
Proof.
  assert (Hnil : forall st0 : Locals, exists cs vs fs : list TreeNode,
             consts st0 = (consts st0 ++ cs)%list
             /\ vars st0 = (vars st0 ++ vs)%list
             /\ funcs st0 = (funcs st0 ++ fs)%list
             /\ List.map node_name cs = [] /\ List.map node_name vs = []
             /\ List.map node_name fs = []
             /\ Forall (isLeafUnder (pkgName ++ ".constants")) cs
             /\ Forall (isLeafUnder (pkgName ++ ".global vars")) vs
             /\ Forall (isLeafUnder (pkgName ++ ".funcs")) fs).
  { intros st0. exists [], [], []. rewrite !app_nil_r. repeat split; constructor. }
  destruct decl as [|tok specs|fname fpos recv]; cbn [parseDecl].
  - intros [= <-]. apply Hnil.
  - destruct tok; cbn [Token_String String.eqb Ascii.eqb Bool.eqb];
      try (intros [= <-]; apply Hnil).
    + intros [= <-].
      exists (valueNamesFrom file (pkgName ++ ".constants") specs), [], [].
      cbn [consts vars funcs set_consts constNamesOf varNamesOf funcNamesOf].
      rewrite !app_nil_r.
      repeat split; try constructor;
        [apply valueNamesFrom_names | apply valueNamesFrom_leaves].
    + destruct specs as [|[|names|id] rest]; try discriminate.
      pose proof (lookupOrNew_groups st (id_name id)) as (Hc & Hv & Hf & _).
      destruct (lookupOrNew st (id_name id)) as [typ st1]. cbn [snd] in *.
      intros [= <-]. cbn [consts vars funcs set_types set_heap].
      rewrite Hc, Hv, Hf. apply Hnil.
    + intros [= <-].
      exists [], (valueNamesFrom file (pkgName ++ ".global vars") specs), [].
      cbn [consts vars funcs set_vars constNamesOf varNamesOf funcNamesOf].
      rewrite !app_nil_r.
      repeat split; try constructor;
        [apply valueNamesFrom_names | apply valueNamesFrom_leaves].
  - destruct recv as [[|field rest]|]; try discriminate.
    + destruct (match Type_ field with StarExpr x => x | t => t end) as [x| |];
        try discriminate.
      pose proof (lookupOrNew_groups st x) as (Hc & Hv & Hf & _).
      destruct (lookupOrNew st x) as [typ st1]. cbn [snd] in *.
      intros [= <-]. cbn [consts vars funcs set_heap].
      rewrite Hc, Hv, Hf. apply Hnil.
    + intros [= <-].
      exists [], [],
        [nameNode (mkName fname (pkgName ++ ".funcs." ++ fname) nameColor [] file fpos)].
      cbn [consts vars funcs set_funcs constNamesOf varNamesOf funcNamesOf].
      rewrite !app_nil_r.
      do 6 (split; [reflexivity|]). split; [constructor|]. split; [constructor|].
      constructor; [|constructor].
      split; [reflexivity|]. split; [reflexivity|].
      cbn [node_path node_name nameNode name path]. rewrite string_app_assoc.
      reflexivity.
Qed.

Lemma parseInOrder_groups (pkgName : string) (l : list (string * Decl)) :
  forall st st',
    parseInOrder pkgName st l = Some st' ->
    exists cs vs fs,
      consts st' = (consts st ++ cs)%list
      /\ vars st' = (vars st ++ vs)%list
      /\ funcs st' = (funcs st ++ fs)%list
      /\ List.map node_name cs = namesIn constNamesOf l
      /\ List.map node_name vs = namesIn varNamesOf l
      /\ List.map node_name fs = namesIn funcNamesOf l
      /\ Forall (isLeafUnder (pkgName ++ ".constants")) cs
      /\ Forall (isLeafUnder (pkgName ++ ".global vars")) vs
      /\ Forall (isLeafUnder (pkgName ++ ".funcs")) fs.
Proof.
  induction l as [|[f d] l IH]; intros st st' H; cbn [parseInOrder] in H.
  - injection H as <-. exists [], [], []. rewrite !app_nil_r.
    repeat split; constructor.
  - destruct (parseDecl pkgName f st d) as [st1|] eqn:Hd; [|discriminate].
    destruct (parseDecl_groups pkgName f st st1 d Hd)
      as (cs1 & vs1 & fs1 & Hc1 & Hv1 & Hf1 & Hcn1 & Hvn1 & Hfn1 & Hcl1 & Hvl1 & Hfl1).
    destruct (IH st1 st' H)
      as (cs2 & vs2 & fs2 & Hc2 & Hv2 & Hf2 & Hcn2 & Hvn2 & Hfn2 & Hcl2 & Hvl2 & Hfl2).
    exists (cs1 ++ cs2)%list, (vs1 ++ vs2)%list, (fs1 ++ fs2)%list.
    rewrite Hc2, Hv2, Hf2, Hc1, Hv1, Hf1, <- !app_assoc.
    unfold namesIn. cbn [flat_map snd]. rewrite !List.map_app.
    rewrite Hcn1, Hvn1, Hfn1. unfold namesIn in Hcn2, Hvn2, Hfn2.
    rewrite Hcn2, Hvn2, Hfn2.
    repeat split; try reflexivity; apply List.Forall_app; split; assumption.
Qed.

(** X10. In the outline of a package the groups of constants, global
    variables and functions hold one leaf for each name declared by a
    [const] declaration, by a [var] declaration and for each function
    without a receiver, in the order in which the declarations are met; the
    path of a leaf is the path of its group, a dot and its name. *)
Theorem X10_groups_list_the_declared_names (pkg : Package) (pkgNode : TreeNode) :
  parsePkg pkg = Some pkgNode ->
  exists cs vs ts fs,
    node_children pkgNode
    = [ GenericTreeNode "constants" (pkg_name pkg ++ ".constants") genericColor cs;
        GenericTreeNode "global vars" (pkg_name pkg ++ ".global vars") genericColor vs;
        GenericTreeNode "types" (pkg_name pkg ++ ".types") genericColor ts;
        GenericTreeNode "funcs" (pkg_name pkg ++ ".funcs") genericColor fs ]
    /\ List.map node_name cs = namesIn constNamesOf (declsInOrder (pkg_files pkg))
    /\ List.map node_name vs = namesIn varNamesOf (declsInOrder (pkg_files pkg))
    /\ List.map node_name fs = namesIn funcNamesOf (declsInOrder (pkg_files pkg))
    /\ Forall (isLeafUnder (pkg_name pkg ++ ".constants")) cs
    /\ Forall (isLeafUnder (pkg_name pkg ++ ".global vars")) vs
    /\ Forall (isLeafUnder (pkg_name pkg ++ ".funcs")) fs.
Proof.
  unfold parsePkg. rewrite parseFiles_in_order.
  destruct (parseInOrder (pkg_name pkg) initLocals (declsInOrder (pkg_files pkg)))
    as [st|] eqn:Hst; [|discriminate].
  intros [= <-].
  destruct (parseInOrder_groups _ _ _ _ Hst)
    as (cs & vs & fs & Hc & Hv & Hf & Hrest).
  cbn [initLocals consts vars funcs app] in Hc, Hv, Hf.
  exists cs, vs, (List.map (fun p => nameNode (deref (heap st) p)) (types st)), fs.
  split; [|exact Hrest].
  cbn [node_children]. unfold groups. rewrite Hc, Hv, Hf. reflexivity.
Qed.

Lemma X10_groups_witness :
  exists pkgNode cs vs ts fs,
    parsePkg (mkPackage "foo" [("a.go", [abcDecl; mainDecl]); ("b.go", [fooDecl])])
    = Some pkgNode
    /\ node_children pkgNode
       = [ GenericTreeNode "constants" "foo.constants" genericColor cs;
           GenericTreeNode "global vars" "foo.global vars" genericColor vs;
           GenericTreeNode "types" "foo.types" genericColor ts;
           GenericTreeNode "funcs" "foo.funcs" genericColor fs ]
    /\ List.map node_name cs = ["a"; "b"; "c"]
    /\ List.map node_name vs = []
    /\ List.map node_name fs = ["main"].
Proof.
  eexists. 
  destruct (X10_groups_list_the_declared_names
              (mkPackage "foo" [("a.go", [abcDecl; mainDecl]); ("b.go", [fooDecl])])
              _ ltac:(vm_compute; reflexivity))
    as (cs & vs & ts & fs & Hch & Hc & Hv & Hf & _).
  exists cs, vs, ts, fs.
  split; [reflexivity|]. split; [exact Hch|].
  split; [exact Hc|]. split; [exact Hv | exact Hf].
Defined.

Lemma namesIn_snoc (pick : Decl -> list string) (l : list (string * Decl))
      (fd : string * Decl) :
  namesIn pick (l ++ [fd]) = (namesIn pick l ++ pick (snd fd))%list.
Proof.
  unfold namesIn. rewrite List.flat_map_app. cbn [flat_map].
  rewrite app_nil_r. reflexivity.
Qed.

Lemma methodsOf_snoc (pkgName T : string) (l : list (string * Decl))
      (fd : string * Decl) :
  methodsOf pkgName T (l ++ [fd])
  = (methodsOf pkgName T l ++ methodOn pkgName T fd)%list.
Proof.
  unfold methodsOf. rewrite List.flat_map_app. cbn [flat_map].
  rewrite app_nil_r. reflexivity.
Qed.

Lemma lastTypeDecl_snoc (T : string) (l : list (string * Decl)) (fd : string * Decl) :
  lastTypeDecl T (l ++ [fd])
  = match typeDeclOf T fd with
    | Some loc => Some loc
    | None => lastTypeDecl T l
    end.
Proof.
  induction l as [|x l IH]; cbn [app lastTypeDecl].
  - destruct (typeDeclOf T fd); reflexivity.
  - rewrite IH. destruct (typeDeclOf T fd); [reflexivity|].
    destruct (lastTypeDecl T l); reflexivity.
Qed.

(** A declaration that neither declares [T] nor is a method on it leaves
    the [Name] that stands for [T] as it is. *)
Lemma cellFor_other (pkgName T : string) (l : list (string * Decl))
      (fd : string * Decl) :
  typeDeclOf T fd = None -> methodOn pkgName T fd = [] ->
  cellFor pkgName T (l ++ [fd]) = cellFor pkgName T l.
Proof.
  intros Hd Hm. unfold cellFor.
  rewrite lastTypeDecl_snoc, Hd, methodsOf_snoc, Hm, app_nil_r. reflexivity.
Qed.

Lemma cellFor_children (pkgName T : string) (l : list (string * Decl)) :
  children (cellFor pkgName T l) = methodsOf pkgName T l.
Proof. unfold cellFor. destruct (lastTypeDecl T l); reflexivity. Qed.

Lemma cellFor_declared (pkgName T file : string) (l : list (string * Decl))
      (id : IdentAt) (rest : list Spec) :
  id_name id = T ->
  cellFor pkgName T (l ++ [(file, GenDecl TYPE (TypeSpec id :: rest))])
  = mkName T (pkgName ++ ".types." ++ T) nameColor
           (children (cellFor pkgName T l)) file (id_pos id).
Proof.
  intros HT. unfold cellFor at 1.
  rewrite lastTypeDecl_snoc, methodsOf_snoc, cellFor_children.
  unfold typeDeclOf, methodOn. cbn [snd fst].
  rewrite HT, String.eqb_refl, app_nil_r. reflexivity.
Qed.

Lemma cellFor_method (pkgName T file m : string) (mpos : Z)
      (l : list (string * Decl)) (fields : list Field) :
  recvTypeName fields = Some T ->
  cellFor pkgName T (l ++ [(file, FuncDecl m mpos (Some fields))])
  = mkName (name (cellFor pkgName T l)) (path (cellFor pkgName T l))
           (color (cellFor pkgName T l))
           (children (cellFor pkgName T l)
              ++ [NameNode m (pkgName ++ ".types." ++ T ++ "." ++ m) nameColor []
                           file mpos])
           (filename (cellFor pkgName T l)) (pos (cellFor pkgName T l)).
Proof.
  intros HT. unfold cellFor.
  rewrite lastTypeDecl_snoc, methodsOf_snoc.
  unfold typeDeclOf, methodOn. cbn [snd fst].
  rewrite HT, String.eqb_refl.
  destruct (lastTypeDecl T l); reflexivity.
Qed.

(** Looking a type up, and entering a fresh [Name] for it if it is new,
    keeps the store in step with the declarations read. *)
Lemma storeFor_lookupOrNew (pkgName : string) (st : Locals)
      (l : list (string * Decl)) (T : string) :
  storeFor pkgName st l ->
  storeFor pkgName (snd (lookupOrNew st T)) l
  /\ typeMap (snd (lookupOrNew st T)) !! T = Some (fst (lookupOrNew st T))
  /\ types (snd (lookupOrNew st T)) = types st.
Proof.
  intros (Ha & Hb & Hc & Hd). unfold lookupOrNew.
  destruct (typeMap st !! T) as [p|] eqn:HT; cbn [fst snd].
  - repeat split; assumption.
  - cbn [typeMap heap types set_typeMap set_heap].
    assert (Hlt : forall k q, typeMap st !! k = Some q -> (q < length (heap st))%nat).
    { intros k q Hk. apply Ha in Hk. apply lookup_lt_Some in Hk. exact Hk. }
    split; [|split; [apply lookup_insert_eq | reflexivity]].
    unfold storeFor. cbn [typeMap heap types set_typeMap set_heap].
    split; [|split; [|split]].
    + intros k q Hk. destruct (decide (T = k)) as [<-|Hne].
      * rewrite lookup_insert_eq in Hk. injection Hk as <-.
        rewrite (Hc T HT). apply list_lookup_middle. reflexivity.
      * rewrite lookup_insert_ne in Hk by exact Hne.
        rewrite lookup_app_l by (eapply Hlt; exact Hk). apply Ha. exact Hk.
    + intros k1 k2 q H1 H2.
      destruct (decide (T = k1)) as [<-|Hne1]; destruct (decide (T = k2)) as [<-|Hne2];
        try reflexivity.
      * rewrite lookup_insert_eq in H1. rewrite lookup_insert_ne in H2 by exact Hne2.
        injection H1 as <-. apply Hlt in H2. lia.
      * rewrite lookup_insert_eq in H2. rewrite lookup_insert_ne in H1 by exact Hne1.
        injection H2 as <-. apply Hlt in H1. lia.
      * rewrite lookup_insert_ne in H1 by exact Hne1.
        rewrite lookup_insert_ne in H2 by exact Hne2. exact (Hb k1 k2 q H1 H2).
    + intros k Hk. destruct (decide (T = k)) as [<-|Hne].
      * rewrite lookup_insert_eq in Hk. discriminate Hk.
      * rewrite lookup_insert_ne in Hk by exact Hne. apply Hc. exact Hk.
    + eapply List.Forall2_impl; [|exact Hd]. cbn beta. intros k q Hk.
      destruct (decide (T = k)) as [<-|Hne]; [congruence|].
      rewrite lookup_insert_ne by exact Hne. exact Hk.
Qed.

(** A write through the pointer of [T] that brings its [Name] up to date
    with one more declaration, which concerns no other type. *)
Lemma storeFor_write (pkgName : string) (st : Locals) (l : list (string * Decl))
      (T : string) (p : nat) (fd : string * Decl)
      (cs vs fs : list TreeNode) (tys : list nat) :
  storeFor pkgName st l ->
  typeMap st !! T = Some p ->
  (forall k, k <> T -> cellFor pkgName k (l ++ [fd]) = cellFor pkgName k l) ->
  Forall2 (fun T' q => typeMap st !! T' = Some q)
          (namesIn typeNamesOf l ++ typeNamesOf (snd fd)) tys ->
  storeFor pkgName
    (mkLocals cs vs (<[p := cellFor pkgName T (l ++ [fd])]> (heap st))
              (typeMap st) tys fs)
    (l ++ [fd]).
Proof.
  intros (Ha & Hb & Hc & Hd) HT Hother Htys.
  unfold storeFor. cbn [typeMap heap types].
  split; [|split; [exact Hb|split]].
  - intros k q Hk. destruct (decide (k = T)) as [->|Hne].
    + assert (q = p) by congruence. subst q.
      apply list_lookup_insert_eq. eapply lookup_lt_Some. apply Ha. exact HT.
    + assert (Hpq : p <> q) by (intros <-; apply Hne; exact (Hb k T p Hk HT)).
      rewrite list_lookup_insert_ne by exact Hpq.
      rewrite (Hother k Hne). apply Ha. exact Hk.
  - intros k Hk. assert (Hne : k <> T) by congruence.
    rewrite (Hother k Hne). apply Hc. exact Hk.
  - rewrite namesIn_snoc. exact Htys.
Qed.

Lemma storeFor_untouched (pkgName : string) (st st' : Locals)
      (l : list (string * Decl)) (fd : string * Decl) :
  storeFor pkgName st l ->
  typeMap st' = typeMap st -> heap st' = heap st -> types st' = types st ->
  (forall k, typeDeclOf k fd = None) ->
  (forall k, methodOn pkgName k fd = []) ->
  typeNamesOf (snd fd) = [] ->
  storeFor pkgName st' (l ++ [fd]).
Proof.
  intros (Ha & Hb & Hc & Hd) Hm Hh Ht Hdecl Hmeth Hnames.
  unfold storeFor. rewrite Hm, Hh, Ht, namesIn_snoc, Hnames, app_nil_r.
  split; [|split; [exact Hb|split; [|exact Hd]]].
  - intros k q Hk. rewrite cellFor_other by auto. apply Ha. exact Hk.
  - intros k Hk. rewrite cellFor_other by auto. apply Hc. exact Hk.
Qed.

Lemma deref_cell (pkgName : string) (st : Locals) (l : list (string * Decl))
      (T : string) (p : nat) :
  storeFor pkgName st l -> typeMap st !! T = Some p ->
  deref (heap st) p = cellFor pkgName T l.
Proof.
  intros (Ha & _) HT. unfold deref. rewrite (Ha T p HT). reflexivity.
Qed.

(** One declaration keeps the store in step. *)
Lemma parseDecl_storeFor (pkgName file : string) (st st' : Locals)
      (l : list (string * Decl)) (decl : Decl) :
  storeFor pkgName st l ->
  parseDecl pkgName file st decl = Some st' ->
  storeFor pkgName st' (l ++ [(file, decl)]).
Proof.
  intros Hst.
  destruct decl as [|tok specs|fname fpos recv]; cbn [parseDecl].
  - intros [= <-]. apply (storeFor_untouched pkgName st st l); auto.
  - destruct tok; cbn [Token_String String.eqb Ascii.eqb Bool.eqb];
      try (intros [= <-]; apply (storeFor_untouched pkgName st _ l); auto; fail).
    destruct specs as [|[|names|id] rest]; try discriminate.
    destruct (storeFor_lookupOrNew pkgName st l (id_name id) Hst)
      as (Hst1 & HT & Htys).
    destruct (lookupOrNew st (id_name id)) as [p st1]. cbn [fst snd] in *.
    intros [= <-]. unfold update.
    rewrite (deref_cell pkgName st1 l (id_name id) p Hst1 HT).
    rewrite <- (cellFor_declared pkgName (id_name id) file l id rest eq_refl).
    unfold set_types, set_heap. cbn [consts vars heap typeMap types funcs].
    apply storeFor_write; try assumption.
    + intros k Hk. apply cellFor_other; [|reflexivity].
      unfold typeDeclOf. cbn [snd].
      destruct (String.eqb_spec (id_name id) k); [congruence | reflexivity].
    + cbn [snd typeNamesOf]. apply List.Forall2_app.
      * destruct Hst1 as (_ & _ & _ & Hd). exact Hd.
      * constructor; [exact HT | constructor].
  - destruct recv as [[|field rest]|]; try discriminate.
    + destruct (match Type_ field with StarExpr x => x | t => t end)
        as [T| |] eqn:Hrecv; try discriminate.
      assert (HrT : recvTypeName (field :: rest) = Some T).
      { cbn [recvTypeName]. destruct (Type_ field) as [x|[x|y|]|];
          try discriminate Hrecv; injection Hrecv as ->; reflexivity. }
      destruct (storeFor_lookupOrNew pkgName st l T Hst) as (Hst1 & HT & Htys).
      destruct (lookupOrNew st T) as [p st1]. cbn [fst snd] in *.
      intros [= <-]. unfold update.
      rewrite (deref_cell pkgName st1 l T p Hst1 HT).
      change (nameNode
                (mkName fname (pkgName ++ ".types." ++ T ++ "." ++ fname)
                        nameColor [] file fpos))
        with (NameNode fname (pkgName ++ ".types." ++ T ++ "." ++ fname)
                       nameColor [] file fpos).
      rewrite <- (cellFor_method pkgName T file fname fpos l (field :: rest) HrT).
      unfold set_heap.
      apply storeFor_write; try assumption.
      * intros k Hk. apply cellFor_other; [reflexivity|].
        unfold methodOn. cbn [snd]. rewrite HrT.
        destruct (String.eqb_spec T k); [congruence | reflexivity].
      * cbn [snd typeNamesOf]. rewrite app_nil_r.
        destruct Hst1 as (_ & _ & _ & Hd). exact Hd.
    + intros [= <-]. apply (storeFor_untouched pkgName st _ l); auto.
Qed.

Lemma parseInOrder_storeFor (pkgName : string) (l : list (string * Decl)) :
  forall (done : list (string * Decl)) (st st' : Locals),
    storeFor pkgName st done ->
    parseInOrder pkgName st l = Some st' ->
    storeFor pkgName st' (done ++ l).
Proof.
  induction l as [|[f d] l IH]; intros done st st' Hst H; cbn [parseInOrder] in H.
  - injection H as <-. rewrite app_nil_r. exact Hst.
  - destruct (parseDecl pkgName f st d) as [st1|] eqn:Hd; [|discriminate].
    change ((f, d) :: l) with ([(f, d)] ++ l)%list. rewrite app_assoc.
    apply (IH _ st1 st'); [|exact H].
    exact (parseDecl_storeFor pkgName f st st1 done d Hst Hd).
Qed.

Lemma storeFor_init (pkgName : string) : storeFor pkgName initLocals [].
Proof.
  unfold storeFor, initLocals. cbn [typeMap heap types].
  split; [|split; [|split]].
  - intros k p Hk. rewrite lookup_empty in Hk. discriminate Hk.
  - intros k1 k2 p Hk. rewrite lookup_empty in Hk. discriminate Hk.
  - intros k _. reflexivity.
  - constructor.
Qed.

Lemma lastTypeDecl_declared (T : string) (l : list (string * Decl)) :
  In T (namesIn typeNamesOf l) -> exists loc, lastTypeDecl T l = Some loc.
Proof.
  induction l as [|[f d] l IH]; cbn [namesIn flat_map]; [intros []|].
  intros Hin. apply List.in_app_or in Hin. cbn [lastTypeDecl].
  destruct Hin as [Hin|Hin].
  - destruct (lastTypeDecl T l) as [loc|]; [exists loc; reflexivity|].
    unfold typeDeclOf. cbn [snd fst] in *.
    destruct d as [|tok specs|]; try contradiction.
    destruct tok; try contradiction.
    destruct specs as [|[|names|id] rest]; try contradiction.
    destruct Hin as [<-|[]]. rewrite String.eqb_refl. eexists; reflexivity.
  - destruct (IH Hin) as [loc ->]. exists loc; reflexivity.
Qed.

(** X11. The types group of the outline of a package holds one node for
    each [type] declaration, in the order in which they are met.  The node
    of the type [T] carries the name [T], the path of the group extended by
    [T], the file and the position of the last declaration of [T], and as
    children all the methods of the package with the receiver [T] or [*T],
    in the order in which they are met, wherever they stand relative to the
    declaration of the type.  Methods on a type that no [type] declaration
    of the package heads are not in the outline. *)
Theorem X11_types_group_lists_types_with_their_methods
    (pkg : Package) (pkgNode : TreeNode) :
  parsePkg pkg = Some pkgNode ->
  typesOf pkgNode
  = List.map
      (fun T => nameNode (cellFor (pkg_name pkg) T (declsInOrder (pkg_files pkg))))
      (namesIn typeNamesOf (declsInOrder (pkg_files pkg)))
  /\ Forall
       (fun t =>
          node_path t = pkg_name pkg ++ ".types." ++ node_name t
          /\ node_color t = nameColor
          /\ node_children t
             = methodsOf (pkg_name pkg) (node_name t) (declsInOrder (pkg_files pkg)))
       (typesOf pkgNode)
  /\ List.map node_name (typesOf pkgNode)
     = namesIn typeNamesOf (declsInOrder (pkg_files pkg)).
Proof.
  unfold parsePkg. rewrite parseFiles_in_order.
  destruct (parseInOrder (pkg_name pkg) initLocals (declsInOrder (pkg_files pkg)))
    as [st|] eqn:Hst; [|discriminate].
  intros [= <-].
  pose proof (parseInOrder_storeFor (pkg_name pkg) _ [] initLocals st
                (storeFor_init (pkg_name pkg)) Hst) as Hfor.
  cbn [app] in Hfor.
  set (all := declsInOrder (pkg_files pkg)) in *.
  assert (Heq : typesOf
                  (GenericTreeNode (pkg_name pkg) (pkg_name pkg) skippableColor
                                   (groups (pkg_name pkg) st))
                = List.map (fun T => nameNode (cellFor (pkg_name pkg) T all))
                           (namesIn typeNamesOf all)).
  { unfold typesOf, groups. cbn [node_children].
    destruct Hfor as (Ha & _ & _ & Hd).
    induction Hd as [|T p names ps HT _ IH]; [reflexivity|].
    cbn [List.map]. rewrite IH. f_equal. f_equal.
    unfold deref. rewrite (Ha T p HT). reflexivity. }
  rewrite Heq. split; [reflexivity|]. split.
  - apply List.Forall_forall. intros t Ht.
    apply List.in_map_iff in Ht as [T [<- HT]].
    destruct (lastTypeDecl_declared T all HT) as [loc Hloc].
    unfold cellFor. rewrite Hloc. repeat split.
  - rewrite List.map_map.
    rewrite <- (List.map_id (namesIn typeNamesOf all)) at 2.
    apply List.map_ext_in. intros T HT.
    destruct (lastTypeDecl_declared T all HT) as [loc Hloc].
    unfold cellFor. rewrite Hloc. reflexivity.
Qed.

Lemma X11_types_witness :
  exists pkgNode,
    parsePkg (mkPackage "foo" [("bar.go", [barDecl; genericMethodOnBaz]);
                               ("foo.go", [fooDecl])])
    = Some pkgNode
    /\ typesOf pkgNode = [fooBar]
    /\ List.map node_name (typesOf pkgNode) = ["Foo"].
Proof.
  eexists.
  destruct (X11_types_group_lists_types_with_their_methods
              (mkPackage "foo" [("bar.go", [barDecl; genericMethodOnBaz]);
                                ("foo.go", [fooDecl])])
              _ ltac:(vm_compute; reflexivity))
    as (Hty & _ & Hnames).
  split; [reflexivity|]. split; [exact Hty | exact Hnames].
Defined.

Lemma Reload_succeeds (pkgs : list Package) :
  forall (nodes : list TreeNode) (t : TreeNode),
    Forall2 (fun pkg node => parsePkg pkg = Some node) pkgs nodes ->
    exists t',
      Reload t pkgs = Some t'
      /\ node_children t' = (node_children t ++ nodes)%list.
Proof.
  induction pkgs as [|pkg pkgs IH]; intros nodes t Hall;
    inversion Hall as [|? node ? nodes' Hpkg Hrest]; subst; cbn [Reload].
  - exists t. rewrite app_nil_r. split; reflexivity.
  - rewrite Hpkg.
    destruct (IH nodes' (SkippingTreeNode (node_name t) (node_path t) (node_color t)
                                          (node_children t ++ [node])) Hrest)
      as (t' & Ht' & Hch).
    exists t'. split; [exact Ht'|]. rewrite Hch. cbn [node_children].
    rewrite <- app_assoc. reflexivity.
Qed.

(** X12. [Reload] never clears the table of contents: it appends the
    package nodes to the children that are there.  Reloading the same
    packages once more succeeds and leaves every package node twice among
    the children, after whatever was there before. *)
Theorem X12_Reload_appends_to_what_is_there
    (t t' : TreeNode) (pkgs : list Package) :
  Reload t pkgs = Some t' ->
  exists nodes t'',
    Forall2 (fun pkg node => parsePkg pkg = Some node) pkgs nodes
    /\ node_children t' = (node_children t ++ nodes)%list
    /\ Reload t' pkgs = Some t''
    /\ node_children t'' = (node_children t ++ nodes ++ nodes)%list.
Proof.
  intros H. destruct (Reload_children pkgs t t' H) as (nodes & Hall & Hch).
  destruct (Reload_succeeds pkgs nodes t' Hall) as (t'' & Ht'' & Hch'').
  exists nodes, t''. repeat split; try assumption.
  rewrite Hch'', Hch, <- app_assoc. reflexivity.
Qed.

Lemma X12_Reload_witness :
  exists t' nodes t'',
    Reload newTOC [fooPkg] = Some t'
    /\ node_children t' = nodes
    /\ Reload t' [fooPkg] = Some t''
    /\ node_children t'' = (nodes ++ nodes)%list
    /\ length nodes = 1%nat.
Proof.
  eexists.
  destruct (X12_Reload_appends_to_what_is_there newTOC _ [fooPkg]
              ltac:(vm_compute; reflexivity))
    as (nodes & t'' & Hall & Hch & Ht'' & Hch'').
  exists nodes, t''. split; [reflexivity|].
  split; [exact Hch|]. split; [exact Ht''|]. split; [exact Hch''|].
  apply List.Forall2_length in Hall. symmetry. exact Hall.
Defined.
End OutlineFurther.

Section Walking.
Import GoInt Syntax.
Local Open Scope Z_scope.
Local Open Scope string_scope.
Context {W : Walker}.



Lemma add_in_range (a b : Z) :
  min_int <= a + b <= max_int -> GoInt.add a b = a + b.
Proof. apply wrap_in_range. Qed.

(** C6. The start of the [range] keyword is computed by three cases on the
    assignment operator of the range statement: none, the offset of [for]
    plus the length of ["for "]; [=], the operator's offset plus the length
    of ["= "]; [:=], the operator's offset plus the length of [":= "].  The
    span is recorded, after the key and the value and before the ranged
    expression, as a keyword of the length of ["range"]. *)
Theorem C6_range_keyword_offset
    (For : Pos) (Key Value : Expr) (TokPos : Pos) (Tok : Token) (X : Expr)
    (Body : BlockStmt) (s : State) :
  addRangeStmt For Key Value TokPos Tok X Body s
  = addBlockStmt Body
      (addExpr X
         (add Keyword (rangeStart For TokPos Tok) (slen "range")
            (addExpr Value (addExpr Key (add Keyword For (slen "for") s)))))
  /\ slen "range" = 5
  /\ rangeStart For TokPos ILLEGAL = GoInt.add For (slen "for ")
  /\ rangeStart For TokPos ASSIGN = GoInt.add TokPos (slen "= ")
  /\ rangeStart For TokPos DEFINE = GoInt.add TokPos (slen ":= ")
  /\ (0 <= For <= max_int - 4 -> rangeStart For TokPos ILLEGAL = For + 4)
  /\ (0 <= TokPos <= max_int - 4 ->
      rangeStart For TokPos ASSIGN = TokPos + 2
      /\ rangeStart For TokPos DEFINE = TokPos + 3).
Proof.
  do 5 (split; [reflexivity|]). split.
  - intros H. unfold rangeStart. change (slen "for ") with 4.
    apply add_in_range. unfold min_int, max_int in *. lia.
  - intros H. unfold rangeStart.
    change (slen "= ") with 2. change (slen ":= ") with 3.
    split; apply add_in_range; unfold min_int, max_int in *; lia.
Qed.

(** C10. For an if statement with an else branch the walker records, after
    the body and before the else branch, a keyword span of the length of
    ["else"] that starts one position past the end of the body, which is
    itself the position after the closing brace.  The start is not read
    from the text: it is the position of the [else] token exactly when one
    byte lies between the closing brace and [else]. *)
Theorem C10_else_keyword_offset
    (If : Pos) (Init : Stmt) (Cond : Expr) (Body : BlockStmt) (Else : Stmt)
    (s : State) :
  Else <> NilStmt ->
  addIfStmt If Init Cond Body Else s
  = addStmt Else
      (add Keyword (GoInt.add (BlockStmt_End Body) 1) (slen "else")
         (addBlockStmt Body
            (addExpr Cond (addStmt Init (add Keyword If (slen "if") s)))))
  /\ slen "else" = 4
  /\ BlockStmt_End Body = GoInt.add (Rbrace Body) 1
  /\ (forall elsePos : Pos,
         0 <= Rbrace Body < elsePos -> elsePos < max_int ->
         (GoInt.add (BlockStmt_End Body) 1 = elsePos
          <-> elsePos - (Rbrace Body + 1) = 1)).
Proof.
  intros HElse. split; [|split; [reflexivity|split; [reflexivity|]]].
  - unfold addIfStmt. cbn [addStmt]. destruct Else; try reflexivity.
    contradiction HElse; reflexivity.
  - intros elsePos Hpos Hmax. unfold BlockStmt_End.
    rewrite (add_in_range (Rbrace Body) 1)
      by (unfold min_int, max_int in *; lia).
    rewrite add_in_range by (unfold min_int, max_int in *; lia).
    lia.
Qed.

End Walking.

Section WalkingRecorded.
Import GoInt Syntax.
Local Open Scope Z_scope.
Local Open Scope string_scope.

Lemma C6_range_witness :
  @addRangeStmt Recorder 10 "i" "" 16 DEFINE "xs" rangeOverXs_body []
  = [ EvAdd Keyword 10 3; EvExpr "i"; EvExpr ""; EvAdd Keyword 19 5;
      EvExpr "xs"; EvScopeOpen 28 1 29 1; EvScopeClose 28 29 ]
  /\ @rangeStart 10 16 DEFINE = 19.
Proof.
  destruct (@C6_range_keyword_offset Recorder 10 "i" "" 16 DEFINE "xs"
              rangeOverXs_body [])
    as (Heq & _ & _ & _ & _ & _ & Hdefine).
  split.
  - rewrite Heq. reflexivity.
  - apply Hdefine. unfold max_int. lia.
Defined.

Lemma C10_else_witness :
  @addIfStmt Recorder 0 NilStmt "x" ifElse_body ifElse_else []
  = [ EvAdd Keyword 0 2; EvExpr "x"; EvScopeOpen 5 1 6 1; EvScopeClose 5 6;
      EvAdd Keyword 8 4; EvScopeOpen 13 1 14 1; EvScopeClose 13 14 ]
  /\ (GoInt.add (BlockStmt_End ifElse_body) 1 = 8 <-> 8 - (6 + 1) = 1).
Proof.
  assert (HElse : ifElse_else <> NilStmt) by discriminate.
  destruct (@C10_else_keyword_offset Recorder 0 NilStmt "x" ifElse_body
              ifElse_else [] HElse)
    as (Heq & _ & _ & Hgap).
  split.
  - rewrite Heq. reflexivity.
  - apply (Hgap 8); cbn [Rbrace ifElse_body]; unfold max_int; lia.
Defined.

End WalkingRecorded.

Section Gate.
Import Reload.

Lemma inFlight_app (l1 l2 : list Pc) :
  inFlight (l1 ++ l2) = inFlight l1 + inFlight l2.
Proof. induction l1 as [|pc l1 IH]; cbn [inFlight app]; lia. Qed.

Lemma inFlight_insert (l : list Pc) :
  forall (i : nat) (a b : Pc),
    l !! i = Some a ->
    inFlight (<[i := b]> l) + b2n (holdsGate a) = inFlight l + b2n (holdsGate b).
Proof.
  induction l as [|pc l IH]; intros i a b H; [discriminate H|].
  destruct i as [|i]; cbn in H.
  - injection H as ->. cbn [inFlight]. unfold b2n.
    change (<[0%nat := b]> (a :: l)) with (b :: l). cbn [inFlight].
    destruct (holdsGate a), (holdsGate b); lia.
  - change (<[S i := b]> (pc :: l)) with (pc :: <[i := b]> l). cbn [inFlight].
    specialize (IH i a b H). lia.
Qed.

Lemma reloading_le_inFlight (l : list Pc) : reloading l <= inFlight l.
Proof.
  induction l as [|pc l IH]; cbn [reloading inFlight]; [lia|].
  destruct pc; cbn [holdsGate]; lia.
Qed.

Lemma step_call_inv (i : nat) (p p' : ProjectTree) :
  step_call i p p' -> gate_inv p -> gate_inv p'.
Proof.
  unfold gate_inv, reloadLockCap.
  intros Hstep [Hin Hcap];
    inversion Hstep as [q Hpc Hroom|q Hpc Hfull|q Hpc|q Hpc|q Hpc|q Hpc|q n Hpc Hn];
    subst; cbn [calls reloadLock] in *;
    match goal with
    | |- context [<[i := ?b]> (calls p)] =>
        pose proof (inFlight_insert (calls p) i _ b Hpc) as Hcount
    end;
    cbn [holdsGate b2n] in Hcount; unfold reloadLockCap in *; lia.
Qed.

Lemma step_inv (p p' : ProjectTree) : step p p' -> gate_inv p -> gate_inv p'.
Proof.
  intros Hstep Hinv. inversion Hstep as [q|i q q' Hcall]; subst.
  - destruct Hinv as [Hin Hcap]. split; cbn [calls reloadLock]; [|exact Hcap].
    rewrite inFlight_app. cbn [inFlight holdsGate]. lia.
  - exact (step_call_inv i p p' Hcall Hinv).
Qed.

Lemma reachable_inv (p : ProjectTree) : reachable p -> gate_inv p.
Proof.
  unfold reachable. revert p.
  apply (rtc_ind_r (R := step) gate_inv NewProjectTree).
  - split; cbn; unfold reloadLockCap; lia.
  - intros q r _ Hstep IH. exact (step_inv q r Hstep IH).
Qed.

Lemma inFlight_holder (l : list Pc) (i : nat) (a : Pc) :
  l !! i = Some a -> holdsGate a = true ->
  inFlight (<[i := Finished]> l) + 1 = inFlight l.
Proof.
  intros H Ha. pose proof (inFlight_insert l i a Finished H) as Hc.
  rewrite Ha in Hc. cbn [holdsGate b2n] in Hc. lia.
Qed.

(** C8. At most one update is in flight per project tree.  In every state
    reachable from [NewProjectTree], whatever the interleaving of the calls
    of [update], at most one call stands between its send on [reloadLock]
    and its deferred receive, so at most one reloads the outline.  A call
    that reaches the [select] while the buffer is full can take its step at
    once, and the only step it has is to return: the gate and the other
    calls are left as they were, and a call that returned that way never
    moves again.  The call in flight can always take its deferred receive,
    which empties the buffer. *)
Theorem C8_at_most_one_reload_in_flight :
  (forall p,
      reachable p ->
      inFlight (calls p) <= 1
      /\ reloading (calls p) <= 1
      /\ inFlight (calls p) = reloadLock p)
  /\ (forall p i,
         calls p !! i = Some AtSelect ->
         reloadLock p = reloadLockCap ->
         step_call i p (mkTree (reloadLock p) (<[i := Dropped]> (calls p)))
         /\ (forall p', step_call i p p' ->
                        p' = mkTree (reloadLock p) (<[i := Dropped]> (calls p))))
  /\ (forall p i p', calls p !! i = Some Dropped -> step_call i p p' -> False)
  /\ (forall p i,
         reachable p ->
         calls p !! i = Some AtRelease ->
         step_call i p (mkTree 0 (<[i := Finished]> (calls p)))
         /\ inFlight (<[i := Finished]> (calls p)) = 0
         /\ (forall p', step_call i p p' ->
                        p' = mkTree 0 (<[i := Finished]> (calls p)))).
Proof.
  split; [|split; [|split]].
  - intros p Hreach. destruct (reachable_inv p Hreach) as [Hin Hcap].
    pose proof (reloading_le_inFlight (calls p)).
    unfold reloadLockCap in Hcap. lia.
  - intros p i Hpc Hfull. split.
    + apply step_default; [exact Hpc | lia].
    + intros p' Hstep. inversion Hstep; subst; try congruence. lia.
  - intros p i p' Hpc Hstep. inversion Hstep; subst; congruence.
  - intros p i Hreach Hpc. destruct (reachable_inv p Hreach) as [Hin Hcap].
    pose proof (inFlight_holder (calls p) i AtRelease Hpc eq_refl) as Hheld.
    unfold reloadLockCap in Hcap.
    assert (Hone : reloadLock p = 1) by lia.
    split; [apply step_release; [exact Hpc | exact Hone]|].
    split; [lia|].
    intros p' Hstep. inversion Hstep; subst; try congruence; f_equal; lia.
Qed.

Lemma oneReloading_reachable : reachable oneReloading.
Proof.
  unfold reachable, oneReloading.
  eapply rtc_l; [apply (step_go NewProjectTree)|]. cbn.
  eapply rtc_l; [apply (step_go (mkTree 0 [AtSelect]))|]. cbn.
  eapply rtc_l;
    [apply (step_run 0), step_send; [reflexivity | unfold reloadLockCap; cbn; lia]|].
  cbn.
  eapply rtc_l; [apply (step_run 0), step_dirs_update; reflexivity|]. cbn.
  eapply rtc_l; [apply (step_run 0), step_toc_under_path; reflexivity|]. cbn.
  apply rtc_refl.
Qed.

Lemma C8_gate_witness :
  (inFlight (calls oneReloading) <= 1
   /\ reloading (calls oneReloading) <= 1
   /\ inFlight (calls oneReloading) = reloadLock oneReloading)
  /\ step_call 1 oneReloading (mkTree 1 [AtTOCReload; Dropped]).
Proof.
  split.
  - apply (proj1 C8_at_most_one_reload_in_flight oneReloading).
    exact oneReloading_reachable.
  - apply (proj1 (proj2 C8_at_most_one_reload_in_flight) oneReloading 1);
      reflexivity.
Defined.
End Gate.

(** ** Properties of the tabbed editor *)
Section Tabs.
Import GoInt Editor.
Local Open Scope Z_scope.

Lemma PanelAt_in_range {Panel : Type} (e : PanelHolder Panel) (idx : Z) :
  0 <= idx < len (panels e) ->
  exists panel, PanelAt e idx = Some panel
                /\ nth_error (panels e) (Z.to_nat idx) = Some panel.
Proof.
  intros [H0 Hlt]. unfold PanelAt, len in *.
  destruct (Z.ltb_spec idx 0); [lia|].
  destruct (nth_error (panels e) (Z.to_nat idx)) as [panel|] eqn:Hn.
  - exists panel. split; reflexivity.
  - apply List.nth_error_None in Hn. lia.
Qed.

Lemma switchIndex_Right (n i : Z) :
  0 <= i < n -> n <= max_int -> switchIndex n i Right = (i + 1) mod n.
Proof.
  intros Hi Hn. unfold switchIndex.
  rewrite add_in_range by (unfold min_int, max_int in *; lia).
  destruct (Z.eqb_spec (i + 1) n) as [->|Hne].
  - rewrite Z.mod_same by lia. reflexivity.
  - rewrite Z.mod_small by lia. reflexivity.
Qed.

Lemma switchIndex_Left (n i : Z) :
  0 <= i < n -> n <= max_int -> switchIndex n i Left = (i - 1) mod n.
Proof.
  intros Hi Hn. unfold switchIndex, sub.
  rewrite (wrap_in_range (i - 1)) by (unfold min_int, max_int in *; lia).
  rewrite (wrap_in_range (n - 1)) by (unfold min_int, max_int in *; lia).
  destruct (Z.ltb_spec (i - 1) 0).
  - assert (i = 0) by lia. subst i.
    replace (0 - 1) with (-1 * n + (n - 1)) by lia.
    rewrite Z.add_comm, Z.mod_add by lia. rewrite Z.mod_small by lia. reflexivity.
  - rewrite Z.mod_small by lia. reflexivity.
Qed.

(** X13. With two tabs or more and one of them selected, [EditorAt] goes
    round in a circle: to the right it returns the tab after the selected
    one and the first tab after the last; to the left the tab before and
    the last tab before the first.  It returns a tab in either direction,
    never nil and never a panic, and the index it moves to by going right
    and then left, or left and then right, is the index it started from. *)
Theorem X13_EditorAt_goes_round {Panel : Type} (e : PanelHolder Panel) :
  2 <= len (panels e) <= max_int ->
  0 <= selected e < len (panels e) ->
  (exists panel,
      EditorAt e Right = Returns panel
      /\ nth_error (panels e)
                   (Z.to_nat ((selected e + 1) mod len (panels e))) = Some panel)
  /\ (exists panel,
         EditorAt e Left = Returns panel
         /\ nth_error (panels e)
                      (Z.to_nat ((selected e - 1) mod len (panels e))) = Some panel)
  /\ switchIndex (len (panels e))
                 (switchIndex (len (panels e)) (selected e) Right) Left
     = selected e
  /\ switchIndex (len (panels e))
                 (switchIndex (len (panels e)) (selected e) Left) Right
     = selected e.
Proof.
  intros [Hn2 Hmax] Hsel. set (n := len (panels e)) in *.
  assert (Hr : 0 <= (selected e + 1) mod n < n) by (apply Z.mod_pos_bound; lia).
  assert (Hl : 0 <= (selected e - 1) mod n < n) by (apply Z.mod_pos_bound; lia).
  split; [|split; [|split]].
  - unfold EditorAt. fold n. destruct (Z.ltb_spec n 2); [lia|].
    rewrite switchIndex_Right by lia.
    destruct (PanelAt_in_range e _ Hr) as (panel & -> & Hnth).
    exists panel. split; [reflexivity | exact Hnth].
  - unfold EditorAt. fold n. destruct (Z.ltb_spec n 2); [lia|].
    rewrite switchIndex_Left by lia.
    destruct (PanelAt_in_range e _ Hl) as (panel & -> & Hnth).
    exists panel. split; [reflexivity | exact Hnth].
  - rewrite switchIndex_Right by lia. rewrite switchIndex_Left by lia.
    rewrite Zminus_mod_idemp_l. replace (selected e + 1 - 1) with (selected e) by lia.
    apply Z.mod_small. lia.
  - rewrite switchIndex_Left by lia. rewrite switchIndex_Right by lia.
    rewrite Zplus_mod_idemp_l. replace (selected e - 1 + 1) with (selected e) by lia.
    apply Z.mod_small. lia.
Qed.

Lemma X13_EditorAt_witness :
  EditorAt threeTabs Right = Returns "a.go"%string
  /\ EditorAt threeTabs Left = Returns "b.go"%string.
Proof.
  destruct (X13_EditorAt_goes_round threeTabs)
    as ((r & Hr & Hrn) & (l & Hl & Hln) & _).
  - vm_compute; intuition discriminate.
  - vm_compute; intuition discriminate.
  - vm_compute in Hrn, Hln. injection Hrn as <-. injection Hln as <-.
    split; assumption.
Defined.

Lemma stripPrefix_app (from rest : string) :
  stripPrefix from (from ++ rest) = Some rest.
Proof.
  induction from as [|a from IH]; [reflexivity|].
  change (stripPrefix (String a from) (String a from ++ rest))
    with (if Ascii.eqb a a then stripPrefix from (from ++ rest) else None).
  rewrite Ascii.eqb_refl. exact IH.
Qed.

Lemma stripPrefix_Some (from s rest : string) :
  stripPrefix from s = Some rest -> s = (from ++ rest)%string.
Proof.
  revert s. induction from as [|a from IH]; intros s H.
  - injection H as <-. reflexivity.
  - destruct s as [|b s]; [discriminate H|].
    change (stripPrefix (String a from) (String b s))
      with (if Ascii.eqb a b then stripPrefix from s else None) in H.
    destruct (Ascii.eqb_spec a b) as [<-|]; [|discriminate H].
    change (String a s = String a (from ++ rest)).
    f_equal. apply IH. exact H.
Qed.

Lemma string_app_empty_r (s : string) : (s ++ "")%string = s.
Proof.
  induction s as [|a s IH]; [reflexivity|].
  change (String a (s ++ "") = String a s). f_equal. exact IH.
Qed.

(** X14. [relPath] gives back what follows the prefix and one separator:
    of the prefix, a separator and any rest, the rest.  It panics exactly
    when nothing is left after the prefix, that is on the prefix itself
    and on the empty path. *)
Theorem X14_relPath_strips_prefix_and_separator (Separator : ascii) :
  (forall from rest : string,
      relPath Separator from (from ++ String Separator rest) = Some rest)
  /\ (forall from path : string,
         relPath Separator from path = None
         <-> path = from \/ path = EmptyString).
Proof.
  split.
  - intros from rest. unfold relPath, TrimPrefix. rewrite stripPrefix_app.
    rewrite Ascii.eqb_refl. reflexivity.
  - intros from path. unfold relPath, TrimPrefix.
    destruct (stripPrefix from path) as [rest|] eqn:Hs.
    + apply stripPrefix_Some in Hs. subst path.
      destruct rest as [|c rest].
      * rewrite string_app_empty_r. split; [left; reflexivity | reflexivity].
      * split; [discriminate|].
        intros [H|H].
        -- exfalso. assert (Hl : String.length (from ++ String c rest)
                                 = String.length from) by (rewrite H; reflexivity).
           clear H. induction from as [|a from IH]; cbn in Hl; [discriminate Hl|].
           apply IH. injection Hl as Hl. exact Hl.
        -- destruct from; discriminate H.
    + destruct path as [|c path].
      * split; [right; reflexivity | reflexivity].
      * split; [discriminate|].
        intros [H|H]; [|discriminate H]. subst from.
        pose proof (stripPrefix_app (String c path) EmptyString) as Hself.
        rewrite string_app_empty_r in Hself. congruence.
Qed.
End Tabs.

(** ** Properties of the project opener *)
Section Opening.
Import Commands.
Local Open Scope string_scope.

Lemma afterLoop_found (projects : list Project) (text : string) :
  forall proj found,
    List.find (fun p => String.eqb (Name p) text) projects = Some found ->
    afterLoop projects text proj = found.
Proof.
  induction projects as [|next rest IH]; intros proj found H; [discriminate H|].
  cbn [List.find afterLoop] in *.
  destruct (String.eqb (Name next) text); [congruence | exact (IH next found H)].
Qed.

Lemma last_default {A : Type} (l : list A) (x d1 d2 : A) :
  List.last (x :: l) d1 = List.last (x :: l) d2.
Proof.
  revert x. induction l as [|y l IH]; intros x; [reflexivity|].
  change (List.last (y :: l) d1 = List.last (y :: l) d2). apply IH.
Qed.

Lemma afterLoop_not_found (projects : list Project) (text : string) :
  forall proj,
    List.find (fun p => String.eqb (Name p) text) projects = None ->
    afterLoop projects text proj = List.last projects proj.
Proof.
  induction projects as [|next rest IH]; intros proj H; [reflexivity|].
  cbn [List.find afterLoop] in *.
  destruct (String.eqb (Name next) text); [discriminate H|].
  rewrite (IH next H). destruct rest as [|next' rest]; [reflexivity|].
  change (List.last (next :: next' :: rest) proj)
    with (List.last (next' :: rest) proj).
  apply last_default.
Qed.

Lemma last_not_found (projects : list Project) (text : string) :
  forall proj,
    List.find (fun p => String.eqb (Name p) text) projects = None ->
    projects <> [] ->
    String.eqb (Name (List.last projects proj)) text = false.
Proof.
  induction projects as [|next rest IH]; intros proj H Hne; [contradiction|].
  cbn [List.find] in H.
  destruct (String.eqb (Name next) text) eqn:Hnext; [discriminate H|].
  destruct rest as [|next' rest]; [exact Hnext|].
  change (List.last (next :: next' :: rest) proj)
    with (List.last (next' :: rest) proj).
  apply IH; [exact H | discriminate].
Qed.

(** X15. On an element that can be given a project, [Exec] hands over the
    first project of the list whose name is the text typed and reports it
    executed; when no project has that name it does nothing and reports
    nothing executed, but for one case: with no project at all and an empty
    text it hands over the empty project.  On any other element it does
    nothing. *)
Theorem X15_Exec_opens_first_project_of_that_name
    (projects : list Project) (text : string) :
  Exec true projects text
  = match List.find (fun p => String.eqb (Name p) text) projects with
    | Some found => mkOutcome true false (Some found)
    | None =>
        match projects with
        | [] => if String.eqb "" text
                then mkOutcome true false (Some zeroProject)
                else mkOutcome false false None
        | _ :: _ => mkOutcome false false None
        end
    end
  /\ Exec false projects text = mkOutcome false false None.
Proof.
  split; [|reflexivity]. unfold Exec. cbn [negb].
  destruct (List.find (fun p => String.eqb (Name p) text) projects)
    as [found|] eqn:Hfind.
  - rewrite (afterLoop_found projects text zeroProject found Hfind).
    apply List.find_some in Hfind as [_ Hname]. cbn beta in Hname.
    rewrite Hname. reflexivity.
  - rewrite (afterLoop_not_found projects text zeroProject Hfind).
    destruct projects as [|next rest].
    + cbn [List.last zeroProject Name]. destruct (String.eqb "" text); reflexivity.
    + rewrite (last_not_found (next :: rest) text zeroProject Hfind)
        by discriminate.
      reflexivity.
Qed.
End Opening.

(** ** Properties of the choice of the font *)
Section ChoosingFont.
Import Main.
Variables Reader Bytes GFont Error : Type.
Variable Load : string -> Reader + Error.
Variable ReadAll : Reader -> Bytes + Error.
Variable CreateFont : Bytes -> Z -> GFont + Error.

Lemma afterLoads_first (desiredFonts : list Font) :
  forall font err,
    afterLoads Reader Error Load desiredFonts font (inr err)
    = match List.find (loads Reader Error Load) desiredFonts with
      | Some f => (f, Load (Name f))
      | None =>
          (List.last desiredFonts font,
           snd (afterLoads Reader Error Load desiredFonts font (inr err)))
      end.
Proof.
  induction desiredFonts as [|next rest IH]; intros font err; [reflexivity|].
  cbn [afterLoads List.find]. unfold loads at 1.
  destruct (Load (Name next)) as [reader|err'] eqn:Hload.
  - rewrite Hload. reflexivity.
  - rewrite (IH next err').
    destruct (List.find (loads Reader Error Load) rest); [reflexivity|].
    cbn [snd]. f_equal. destruct rest as [|next' rest]; [reflexivity|].
    change (List.last (next :: next' :: rest) font)
      with (List.last (next' :: rest) font).
    apply last_default.
Qed.

Lemma afterLoads_none (desiredFonts : list Font) :
  forall font err,
    List.find (loads Reader Error Load) desiredFonts = None ->
    exists err',
      snd (afterLoads Reader Error Load desiredFonts font (inr err)) = inr err'.
Proof.
  induction desiredFonts as [|next rest IH]; intros font err H;
    [exists err; reflexivity|].
  cbn [afterLoads List.find] in *. unfold loads at 1 in H.
  destruct (Load (Name next)) as [reader|err']; [discriminate H|].
  exact (IH next err' H).
Qed.

(** [font] on a list is [font] on the first of its fonts that loads. *)
Lemma font_first_loaded (desiredFonts : list Font) :
  font Reader Bytes GFont Error Load ReadAll CreateFont desiredFonts
  = match List.find (loads Reader Error Load) desiredFonts with
    | Some f => font Reader Bytes GFont Error Load ReadAll CreateFont [f]
    | None => (None, [])
    end.
Proof.
  destruct desiredFonts as [|first rest]; [reflexivity|].
  cbn [font List.find]. unfold loads at 1.
  destruct (Load (Name first)) as [reader0|err0] eqn:Hfirst.
  - rewrite Hfirst. reflexivity.
  - rewrite (afterLoads_first rest first err0).
    destruct (List.find (loads Reader Error Load) rest) as [f|] eqn:Hfind.
    + apply List.find_some in Hfind as [_ Hloads]. unfold loads in Hloads.
      destruct (Load (Name f)) as [reader|err]; [reflexivity | discriminate Hloads].
    + destruct (afterLoads_none rest first err0 Hfind) as [err' ->]. reflexivity.
Qed.

Lemma find_none_loads (fonts : list Font) :
  Forall (fun g => loads Reader Error Load g = false) fonts ->
  List.find (loads Reader Error Load) fonts = None.
Proof.
  induction 1 as [|g rest Hg _ IH]; [reflexivity|].
  cbn [List.find]. rewrite Hg. exact IH.
Qed.

Lemma find_first_loads (before after : list Font) (f : Font) :
  Forall (fun g => loads Reader Error Load g = false) before ->
  loads Reader Error Load f = true ->
  List.find (loads Reader Error Load) (before ++ f :: after) = Some f.
Proof.
  intros Hbefore Hf. induction Hbefore as [|g rest Hg _ IH].
  - cbn [app List.find]. rewrite Hf. reflexivity.
  - cbn [app List.find]. rewrite Hg. exact IH.
Qed.

(** X16. [font] uses the first of the desired fonts that loads, and that
    one only.  Where the desired fonts before [f] do not load and [f] loads
    with a reader: when the reader cannot be read, nil is returned and the
    failure to read logged; when the bytes read cannot be made a font of
    the size of [f], nil is returned and the failure to parse logged;
    otherwise the font made of those bytes at the size of [f] is returned
    and nothing logged; in no case is a font after [f] tried.  When no
    desired font loads, nil is returned and nothing is logged. *)
Theorem X16_font_uses_the_first_font_that_loads
        (before after : list Font) (f : Font) (reader : Reader) :
  Forall (fun g => loads Reader Error Load g = false) before ->
  Load (Name f) = inl reader ->
  font Reader Bytes GFont Error Load ReadAll CreateFont (before ++ f :: after)
  = match ReadAll reader with
    | inr err => (None, [FailedToRead err])
    | inl fontBytes =>
        match CreateFont fontBytes (Size f) with
        | inr err => (None, [CouldNotParse err])
        | inl gFont => (Some gFont, [])
        end
    end
  /\ font Reader Bytes GFont Error Load ReadAll CreateFont before = (None, []).
Proof.
  intros Hbefore Hf. split.
  - rewrite font_first_loaded, (find_first_loads before after f Hbefore).
    + cbn [font]. rewrite Hf. reflexivity.
    + unfold loads. rewrite Hf. reflexivity.
  - rewrite font_first_loaded, (find_none_loads before Hbefore). reflexivity.
Qed.
End ChoosingFont.

Section ChoosingFontSample.
Import Main.
Local Open Scope Z_scope.

Lemma X16_font_witness :
  Forall (fun g => loads string string sampleLoad g = false)
         [mkFont "PragmataPro" 12]
  /\ sampleLoad "Inconsolata" = inl "Inconsolata.ttf"%string
  /\ sampleFont [mkFont "PragmataPro" 12; mkFont "Inconsolata" 14; mkFont "Mono" 10]
     = (Some ("Inconsolata.ttf"%string, 14), [])
  /\ sampleFont [mkFont "PragmataPro" 12] = (None, []).
Proof.
  assert (Hbefore : Forall (fun g => loads string string sampleLoad g = false)
                           [mkFont "PragmataPro" 12])
    by (repeat constructor).
  split; [exact Hbefore|]. split; [reflexivity|].
  exact (X16_font_uses_the_first_font_that_loads
           string string (string * Z) string
           sampleLoad sampleReadAll sampleCreateFont
           [mkFont "PragmataPro" 12] [mkFont "Mono" 10]
           (mkFont "Inconsolata" 14) "Inconsolata.ttf"%string
           Hbefore eq_refl).
Defined.
End ChoosingFontSample.

(** ** Properties of the tree of directories *)
Section DirectoryTree.
Import GoInt Directory.
Local Open Scope Z_scope.

Lemma countDirs_from (finfos : list FileInfo) :
  forall children,
    0 <= children -> children + len finfos <= max_int ->
    countDirs finfos children
    = children + len (List.filter IsDir finfos).
Proof.
  unfold len.
  induction finfos as [|finfo rest IH]; intros children H0 Hfit;
    cbn [countDirs List.filter List.length] in *; [lia|].
  destruct (IsDir finfo).
  - rewrite add_in_range by (unfold min_int, max_int in *; lia).
    rewrite IH by lia. cbn [List.length]. lia.
  - rewrite IH by lia. lia.
Qed.

Lemma parse_shown (Join : string -> string -> string) (p : string)
      (finfos : list FileInfo) :
  parse Join p finfos = List.map (fun finfo => Join p (Name finfo)) (shownDirs finfos).
Proof.
  unfold shownDirs.
  induction finfos as [|finfo rest IH]; [reflexivity|].
  cbn [parse List.filter].
  destruct (IsDir finfo); cbn [negb andb]; [|exact IH].
  destruct (String.prefix "." (Name finfo)); cbn [negb List.map];
    [exact IH | f_equal; exact IH].
Qed.

Lemma dirs_split (finfos : list FileInfo) :
  List.length (List.filter IsDir finfos)
  = (List.length (shownDirs finfos) + List.length (hiddenDirs finfos))%nat.
Proof.
  unfold shownDirs, hiddenDirs.
  induction finfos as [|finfo rest IH]; [reflexivity|].
  cbn [List.filter].
  destruct (IsDir finfo); cbn [andb]; [|exact IH].
  destruct (String.prefix "." (Name finfo)); cbn [negb List.length]; lia.
Qed.

(** X17. After a reload of an attached directory its [length] is the
    number of sub-directories of the listing, hidden ones included, while
    its tree holds one child for each sub-directory whose name does not
    start with a dot, in the order of the listing: the length is the number
    of children plus the number of hidden sub-directories.  So a directory
    whose sub-directories are all hidden is marked expandable and expands
    to nothing. *)
Theorem X17_reload_counts_hidden_directories_parse_skips_them
    (Join : string -> string -> string) (d : directory) (finfos : list FileInfo) :
  attached d = true ->
  len finfos <= max_int ->
  dirs (reload Join d (Some finfos))
  = List.map (fun finfo => Join (path d) (Name finfo)) (shownDirs finfos)
  /\ length (reload Join d (Some finfos))
     = len (dirs (reload Join d (Some finfos))) + len (hiddenDirs finfos)
  /\ (shownDirs finfos = [] -> hiddenDirs finfos <> [] ->
      expandable (reload Join d (Some finfos)) = true
      /\ dirs (reload Join d (Some finfos)) = []).
Proof.
  intros Hatt Hfit. cbn [reload dirs length expandable]. rewrite Hatt.
  rewrite parse_shown. rewrite countDirs_from by lia.
  unfold len. rewrite List.length_map, dirs_split.
  split; [reflexivity|]. split; [lia|].
  intros Hshown Hhidden. rewrite Hshown. cbn [List.length List.map]. split; [|reflexivity].
  unfold updateExpandable.
  destruct (hiddenDirs finfos) as [|h hs]; [contradiction|].
  cbn [List.length]. destruct (Z.eqb_spec (0 + Z.of_nat (0 + S (List.length hs))) 0);
    [lia | reflexivity].
Qed.

Lemma X17_only_git_witness :
  expandable (reload (fun a b => (a ++ "/" ++ b)%string)
                     (mkDirectory "/src" false 0 true []) (Some onlyGit)) = true
  /\ dirs (reload (fun a b => (a ++ "/" ++ b)%string)
                  (mkDirectory "/src" false 0 true []) (Some onlyGit)) = []
  /\ length (reload (fun a b => (a ++ "/" ++ b)%string)
                    (mkDirectory "/src" false 0 true []) (Some onlyGit)) = 1.
Proof.
  destruct (X17_reload_counts_hidden_directories_parse_skips_them
              (fun a b => (a ++ "/" ++ b)%string)
              (mkDirectory "/src" false 0 true []) onlyGit)
    as (_ & Hlen & Hquirk).
  - reflexivity.
  - vm_compute; intuition discriminate.
  - destruct Hquirk as [Hexp Hdirs]; [reflexivity | discriminate|].
    split; [exact Hexp|]. split; [exact Hdirs|]. rewrite Hlen, Hdirs. reflexivity.
Defined.
End DirectoryTree.

(** ** Scopes of the statement walker *)
Section Scopes.
Import GoInt Syntax.
Local Open Scope Z_scope.
Context {W : Walker}.

(** A count of the brace scopes that are open, which the walkers of other
    files leave as it is, which [rainbowScope] raises by one and which the
    function that [rainbowScope] returns lowers by one. *)
Variable depth : State -> Z.
Hypothesis depth_add : forall c pos length s, depth (add c pos length s) = depth s.
Hypothesis depth_addNode : forall c pos end_ s, depth (addNode c pos end_ s) = depth s.
Hypothesis depth_addExpr : forall e s, depth (addExpr e s) = depth s.
Hypothesis depth_addCallExpr : forall e s, depth (addCallExpr e s) = depth s.
Hypothesis depth_addDecl : forall d s, depth (addDecl d s) = depth s.
Hypothesis depth_addCommClause : forall c s, depth (addCommClause c s) = depth s.
Hypothesis depth_logPrintf : forall msg s, depth (logPrintf msg s) = depth s.
Hypothesis depth_rainbowScope :
  forall lbrace llen rbrace rlen s,
    depth (fst (rainbowScope lbrace llen rbrace rlen s)) = depth s + 1
    /\ forall s', depth (snd (rainbowScope lbrace llen rbrace rlen s) s') = depth s' - 1.

Lemma depth_addExprs (exprs : list Expr) :
  forall s, depth (addExprs exprs s) = depth s.
Proof using depth_addExpr.
  unfold addExprs.
  induction exprs as [|e exprs IH]; intros s; [reflexivity|].
  cbn [fold_left]. rewrite IH. apply depth_addExpr.
Qed.

(** X18. The statement walker closes every brace scope it opens: when the
    walkers of expressions, calls, declarations and communication clauses
    leave the count of open scopes as it is, so do [addStmt] on every
    statement and [addBlockStmt] on every block, whatever is nested in
    them, unknown statements included. *)
Theorem X18_walker_closes_every_scope_it_opens :
  forall (stmt : Stmt) (s : State), depth (addStmt stmt s) = depth s.
Proof using depth_add depth_addNode depth_addExpr depth_addCallExpr depth_addDecl
            depth_addCommClause depth_logPrintf depth_rainbowScope.
  fix IHs 1 with
    (IHb (b : BlockStmt) {struct b} :
       forall s : State, depth (addBlockStmt b s) = depth s).
  - intros stmt s. destruct stmt; cbn [addStmt];
      repeat first
        [ rewrite IHs | rewrite IHb | rewrite depth_addExprs | rewrite depth_add
        | rewrite depth_addNode | rewrite depth_addExpr | rewrite depth_addCallExpr
        | rewrite depth_addDecl | rewrite depth_addCommClause
        | rewrite depth_logPrintf ];
      try reflexivity.
    + (* CaseClause *)
      match goal with
      | |- depth (?loop ?Body ?s0) = _ =>
          transitivity (depth s0);
            [|rewrite depth_addExprs, depth_add; reflexivity];
            generalize s0; generalize Body
      end.
      fix IHl 1. intros [|x l] s0; [reflexivity|].
      rewrite IHl. apply IHs.
    + (* IfStmt *)
      match goal with
      | |- context [match ?Else with NilStmt => _ | _ => _ end] =>
          destruct Else
      end;
        repeat first
          [ rewrite IHs | rewrite IHb | rewrite depth_add | rewrite depth_addExpr ];
        reflexivity.
  - intros b s. destruct b as [lb l rb]. cbn [addBlockStmt].
    pose proof (depth_rainbowScope lb 1 rb 1 s) as [Hopen Hclose].
    destruct (rainbowScope lb 1 rb 1 s) as [s1 close]. cbn [fst snd] in *.
    rewrite Hclose.
    assert (Hl : forall s0,
               depth ((fix loop (l : list Stmt) (s : State) {struct l} : State :=
                         match l with
                         | [] => s
                         | stmt :: rest => loop rest (addStmt stmt s)
                         end) l s0) = depth s0).
    { generalize l. fix IHl 1. intros [|x l'] s0; [reflexivity|].
      rewrite IHl. apply IHs. }
    rewrite Hl. lia.
Qed.
End Scopes.

Section ScopesRecorded.
Import GoInt Syntax.
Local Open Scope Z_scope.

Lemma openScopes_record (e : Event) (s : list Event) :
  openScopes (record e s) = openScopes s + openScopes [e].
Proof.
  unfold record. induction s as [|x s IH]; [destruct e; reflexivity|].
  set (k := openScopes [e]) in *. cbn [app].
  destruct x; cbn [openScopes]; rewrite IH; lia.
Qed.

Lemma X18_scopes_witness :
  openScopes (@addStmt Recorder nestedIf []) = 0
  /\ @addStmt Recorder nestedIf []
     = [ EvAdd Keyword 0 2; EvExpr "x"; EvScopeOpen 5 1 20 1;
         EvLog "Error: Unknown stmt type: *ast.FooStmt";
         EvAdd Keyword 8 3; EvExpr "ok"; EvScopeOpen 15 1 17 1;
         EvScopeClose 15 17; EvScopeClose 5 20; EvAdd Keyword 22 4;
         EvScopeOpen 27 1 36 1; EvAdd Keyword 29 6; EvScopeClose 27 36 ].
Proof.
  split; [|vm_compute; reflexivity].
  apply (@X18_walker_closes_every_scope_it_opens Recorder openScopes);
    try (intros; cbn [add addNode addExpr addCallExpr addDecl addCommClause
                      logPrintf Recorder];
         rewrite openScopes_record; cbn [openScopes]; lia).
  intros lbrace llen rbrace rlen s. cbn [rainbowScope Recorder fst snd]. split.
  - rewrite openScopes_record. cbn [openScopes]. lia.
  - intros s'. rewrite openScopes_record. cbn [openScopes]. lia.
Defined.
End ScopesRecorded.

(** ** Properties of the watch over a project *)
Section Watching.
Import GoInt Watch.
Local Open Scope Z_scope.






End Watching.

(** ** Properties of the key bindings *)
Section KeyBindings.
Import Settings.
Local Open Scope Z_scope.
Variable ToLower : string -> string.
Variable KeyString : nat -> string.
Variable KeyLast : nat.
Variables ModShift ModControl ModAlt ModSuper : Z.

Local Abbreviation addModifiers := (Settings.addModifiers ModShift ModControl ModAlt).
Local Abbreviation modifierWith := (Settings.modifierWith ModShift ModAlt).
Local Abbreviation findKey := (Settings.findKey ToLower KeyString).
Local Abbreviation keyNamed := (Settings.keyNamed ToLower KeyString KeyLast).
Local Abbreviation modifiersOf := (Settings.modifiersOf ToLower).
Local Abbreviation keyOf := (Settings.keyOf ToLower).
Local Abbreviation parseBinding :=
  (Settings.parseBinding ToLower KeyString KeyLast
                         ModShift ModControl ModAlt ModSuper).

Ltac lor_bits :=
  apply Z.bits_inj'; intros ? ?; rewrite ?Z.lor_spec, ?Z.bits_0; btauto.

Lemma addModifiers_closed (eventPattern : string) (modifiers : list string) :
  forall (m : Z) (log : list LogEntry),
    fst (addModifiers eventPattern modifiers m log)
    = if has "super" modifiers then None
      else Some (Z.lor m (modifierWith ModControl modifiers)).
Proof.
  induction modifiers as [|key rest IH]; intros m log.
  - cbn. f_equal. lor_bits.
  - cbn [Settings.addModifiers]. unfold Settings.modifierWith, has.
    cbn [existsb]. fold (has "super" rest) (has "ctrl" rest) (has "cmd" rest)
                        (has "alt" rest) (has "shift" rest).
    destruct (String.eqb_spec key "ctrl") as [->|Hctrl].
    { cbn [String.eqb Ascii.eqb Bool.eqb orb andb]. rewrite IH.
      destruct (has "super" rest); [reflexivity|]. f_equal.
      unfold Settings.modifierWith.
      destruct (has "ctrl" rest || has "cmd" rest), (has "alt" rest),
        (has "shift" rest); lor_bits. }
    destruct (String.eqb_spec key "cmd") as [->|Hcmd].
    { cbn [String.eqb Ascii.eqb Bool.eqb orb andb]. rewrite IH.
      destruct (has "super" rest); [reflexivity|]. f_equal.
      unfold Settings.modifierWith.
      destruct (has "ctrl" rest), (has "cmd" rest), (has "alt" rest),
        (has "shift" rest); cbn [orb]; lor_bits. }
    cbn [orb].
    destruct (String.eqb_spec key "alt") as [->|Halt].
    { cbn [String.eqb Ascii.eqb Bool.eqb orb andb]. rewrite IH.
      destruct (has "super" rest); [reflexivity|]. f_equal.
      unfold Settings.modifierWith.
      destruct (has "ctrl" rest || has "cmd" rest), (has "alt" rest),
        (has "shift" rest); lor_bits. }
    destruct (String.eqb_spec key "shift") as [->|Hshift].
    { cbn [String.eqb Ascii.eqb Bool.eqb orb andb]. rewrite IH.
      destruct (has "super" rest); [reflexivity|]. f_equal.
      unfold Settings.modifierWith.
      destruct (has "ctrl" rest || has "cmd" rest), (has "alt" rest),
        (has "shift" rest); lor_bits. }
    destruct (String.eqb_spec key "super") as [->|Hsuper]; [reflexivity|].
    cbn [orb]. rewrite IH. reflexivity.
Qed.
Lemma findKey_seq (key : string) :
  forall (n k : nat),
    findKey key k n
    = List.find (fun k => (ToLower (KeyString k) =? key)%string) (seq k n).
Proof.
  induction n as [|n IH]; intros k; [reflexivity|].
  cbn [Settings.findKey seq List.find].
  destruct (ToLower (KeyString k) =? key)%string; [reflexivity|apply IH].
Qed.

Lemma parseBinding_closed (eventPattern : string) :
  fst (parseBinding eventPattern)
  = if has "super" (modifiersOf eventPattern) then []
    else match keyNamed (keyOf eventPattern) with
         | None => []
         | Some k =>
             let m := modifierWith ModControl (modifiersOf eventPattern) in
             if Control ModControl m
             then [mkEvent k m;
                   mkEvent k (Z.lor (Z.ldiff m ModControl) ModSuper)]
             else [mkEvent k m]
         end.
Proof.
  unfold Settings.parseBinding, Settings.keyNamed.
  fold (modifiersOf eventPattern) (keyOf eventPattern).
  pose proof (addModifiers_closed (ToLower eventPattern)
                                  (modifiersOf eventPattern) 0 []) as Hmods.
  destruct (addModifiers (ToLower eventPattern) (modifiersOf eventPattern) 0 [])
    as [[m|] log]; cbn [fst] in Hmods;
    destruct (has "super" (modifiersOf eventPattern)); try discriminate Hmods;
    [|reflexivity].
  injection Hmods as ->. rewrite Z.lor_0_l, findKey_seq.
  destruct (List.find _ (seq 0 KeyLast)); [|reflexivity].
  cbn zeta. destruct (Control ModControl _); reflexivity.
Qed.

Lemma Control_modifierWith (modifiers : list string) :
  ModControl <> 0 ->
  Z.land ModAlt ModControl = 0 -> Z.land ModShift ModControl = 0 ->
  Control ModControl (modifierWith ModControl modifiers)
  = has "ctrl" modifiers || has "cmd" modifiers.
Proof.
  intros Hcontrol Halt Hshift. unfold Control, Settings.modifierWith.
  rewrite !Z.land_lor_distr_l.
  destruct (has "ctrl" modifiers || has "cmd" modifiers),
    (has "alt" modifiers), (has "shift" modifiers);
    rewrite ?Z.land_diag, ?Z.land_0_l, ?Halt, ?Hshift, ?Z.lor_0_r;
    cbn [Z.lor Z.eqb negb]; try reflexivity;
    apply negb_true_iff, Z.eqb_neq, Hcontrol.
Qed.

Lemma mirror_modifierWith (modifiers : list string) :
  Z.land ModAlt ModControl = 0 -> Z.land ModShift ModControl = 0 ->
  Z.lor (Z.ldiff (modifierWith ModControl modifiers) ModControl) ModSuper
  = modifierWith ModSuper modifiers
    \/ has "ctrl" modifiers || has "cmd" modifiers = false.
Proof.
  intros Halt Hshift. unfold Settings.modifierWith.
  destruct (has "ctrl" modifiers || has "cmd" modifiers); [left|right; reflexivity].
  apply Z.bits_inj'. intros n Hn.
  pose proof (f_equal (fun z => Z.testbit z n) Halt) as Ha.
  pose proof (f_equal (fun z => Z.testbit z n) Hshift) as Hs.
  cbn beta in Ha, Hs. rewrite Z.land_spec, Z.bits_0 in Ha, Hs.
  destruct (has "alt" modifiers), (has "shift" modifiers);
    rewrite ?Z.lor_spec, ?Z.ldiff_spec, ?Z.lor_spec, ?Z.bits_0;
    destruct (Z.testbit ModAlt n), (Z.testbit ModShift n),
      (Z.testbit ModControl n), (Z.testbit ModSuper n);
    cbn in *; congruence.
Qed.

Lemma has_same (name : string) (modifiers modifiers' : list string) :
  (forall key, In key modifiers <-> In key modifiers') ->
  has name modifiers = has name modifiers'.
Proof.
  intros Hsame. unfold has. apply eq_true_iff_eq.
  rewrite !existsb_exists. split; intros (key & Hin & Heq);
    exists key; (split; [apply Hsame; exact Hin|exact Heq]).
Qed.

(** X20. The events that [parseBinding] returns for a pattern, where the
    bit for control is not zero and shares nothing with those for alt and
    shift: none when super is among the modifiers of the pattern or no key
    of the toolkit has the name of its key in lower case; otherwise, for the
    first such key, one event with the bits of those of ctrl or cmd, alt and
    shift that are among its modifiers, however often and in whatever
    order, and whatever else is among them, followed, when ctrl or cmd is,
    by the same event with the bit for super in place of that for
    control. *)
Theorem X20_parseBinding_events_in_closed_form (eventPattern : string) :
  ModControl <> 0 ->
  Z.land ModAlt ModControl = 0 -> Z.land ModShift ModControl = 0 ->
  fst (parseBinding eventPattern)
  = if has "super" (modifiersOf eventPattern) then []
    else match keyNamed (keyOf eventPattern) with
         | None => []
         | Some k =>
             mkEvent k (modifierWith ModControl (modifiersOf eventPattern))
             :: (if has "ctrl" (modifiersOf eventPattern)
                    || has "cmd" (modifiersOf eventPattern)
                 then [mkEvent k (modifierWith ModSuper
                                               (modifiersOf eventPattern))]
                 else [])
         end.
Proof.
  intros Hcontrol Halt Hshift. rewrite parseBinding_closed.
  destruct (has "super" (modifiersOf eventPattern)); [reflexivity|].
  destruct (keyNamed (keyOf eventPattern)) as [k|]; [|reflexivity].
  cbn zeta. rewrite (Control_modifierWith _ Hcontrol Halt Hshift).
  destruct (mirror_modifierWith (modifiersOf eventPattern) Halt Hshift)
    as [Hmirror|Hnone].
  - rewrite Hmirror.
    destruct (has "ctrl" (modifiersOf eventPattern)
              || has "cmd" (modifiersOf eventPattern)); reflexivity.
  - rewrite Hnone. reflexivity.
Qed.

(** X21. Two patterns that name the same key and the same modifiers, in
    whatever order and however often, are parsed by [parseBinding] to the
    same events. *)
Theorem X21_parseBinding_ignores_order_and_repeats_of_modifiers
        (eventPattern eventPattern' : string) :
  keyOf eventPattern = keyOf eventPattern' ->
  (forall key, In key (modifiersOf eventPattern)
               <-> In key (modifiersOf eventPattern')) ->
  fst (parseBinding eventPattern) = fst (parseBinding eventPattern').
Proof.
  intros Hkey Hsame. rewrite !parseBinding_closed, Hkey.
  unfold Settings.modifierWith.
  rewrite (has_same "super" _ _ Hsame), (has_same "ctrl" _ _ Hsame),
    (has_same "cmd" _ _ Hsame), (has_same "alt" _ _ Hsame),
    (has_same "shift" _ _ Hsame).
  reflexivity.
Qed.
End KeyBindings.

Section KeyBindingsSample.
Import Settings.
Local Open Scope Z_scope.

Lemma X20_ctrl_shift_n_witness :
  (2 <> 0 /\ Z.land 4 2 = 0 /\ Z.land 1 2 = 0)
  /\ fst (parseSample "Ctrl-Shift-N") = [mkEvent 1 3; mkEvent 1 9].
Proof.
  split; [split; [discriminate|split; reflexivity]|].
  exact (X20_parseBinding_events_in_closed_form
           lower threeKeys 3 1 2 4 8 "Ctrl-Shift-N"
           ltac:(discriminate) eq_refl eq_refl).
Defined.

Lemma X21_shift_ctrl_witness :
  keyOf lower "Ctrl-Shift-N" = keyOf lower "shift-CTRL-shift-n"
  /\ (forall key, In key (modifiersOf lower "Ctrl-Shift-N")
                  <-> In key (modifiersOf lower "shift-CTRL-shift-n"))
  /\ fst (parseSample "Ctrl-Shift-N") = fst (parseSample "shift-CTRL-shift-n").
Proof.
  assert (Hsame : forall key, In key (modifiersOf lower "Ctrl-Shift-N")
                    <-> In key (modifiersOf lower "shift-CTRL-shift-n"))
    by (intros key; vm_compute; tauto).
  split; [reflexivity|]. split; [exact Hsame|].
  exact (X21_parseBinding_ignores_order_and_repeats_of_modifiers
           lower threeKeys 3 1 2 4 8 "Ctrl-Shift-N" "shift-CTRL-shift-n"
           eq_refl Hsame).
Defined.
End KeyBindingsSample.
